(** * PyAlgoMate, Finvasia live trade feed

    A shallow embedding of [pyalgomate/brokers/finvasia/feed.py]: the
    [TradeBar] wrapper, the timestamp-keyed trade buffer of
    [LiveTradeFeed] ([__onTrade], [getNextBars]) and the connection
    life cycle ([__initializeClient], [__onDisconnected],
    [__dispatchImpl], [start], [stop], [eof]).

    Python objects become records, a [dict] becomes an association list in
    insertion order (the feed sorts and iterates it, so the order matters),
    exceptions and the two [while] loops are carried by an outcome type
    with explicit fuel. *)

From Stdlib Require Import List ZArith Bool String DecimalString Lia.
From Stdlib Require Import Sorting.Sorted Sorting.Permutation.
Import ListNotations.

Local Open Scope string_scope.
Local Open Scope list_scope.
Local Open Scope Z_scope.

Set Implicit Arguments.

(** ** Python exceptions

    Only subclasses of [Exception] occur: the feed's own
    [Exception(msg)], the errors of the built-ins it calls, and
    [queue.Empty]. *)

Inductive Exn : Type :=
| Exception (msg : string)
| AttributeError
| IndexError
| KeyError
| StopIteration
| QueueEmpty.

(** [str(e)] as used in the log messages. *)
Definition str (e : Exn) : string :=
  match e with
  | Exception msg => msg
  | AttributeError => "AttributeError"
  | IndexError => "IndexError"
  | KeyError => "KeyError"
  | StopIteration => "StopIteration"
  | QueueEmpty => "Empty"
  end.

(** ** Dictionaries

    A Python [dict] with keys in [Z], in insertion order. *)

Module Dict.
Section Ops.
Variable V : Type.

Definition t := list (Z * V).

(** [d[k]]; [None] stands for [KeyError]. *)
Fixpoint get (k : Z) (d : t) : option V :=
  match d with
  | [] => None
  | (k', v) :: d' => if k =? k' then Some v else get k d'
  end.

(** [k in d]. *)
Definition mem (k : Z) (d : t) : bool :=
  match get k d with Some _ => true | None => false end.

(** [d[k] = v]: an existing key keeps its place, a new one goes last. *)
Fixpoint set (k : Z) (v : V) (d : t) : t :=
  match d with
  | [] => [(k, v)]
  | (k', v') :: d' =>
      if k =? k' then (k, v) :: d' else (k', v') :: set k v d'
  end.

(** [d.pop(k)], the dictionary that is left. *)
Fixpoint pop (k : Z) (d : t) : t :=
  match d with
  | [] => []
  | (k', v') :: d' => if k =? k' then d' else (k', v') :: pop k d'
  end.

(** [sorted(d.items())] compares the [(key, value)] pairs, that is the
    keys first; keys of a dict are distinct, so the values are never
    compared.  [sorted] is stable; so is this insertion sort. *)
Fixpoint insert_item (kv : Z * V) (d : t) : t :=
  match d with
  | [] => [kv]
  | kv' :: d' =>
      if fst kv <=? fst kv' then kv :: d else kv' :: insert_item kv d'
  end.

(** [dict(sorted(d.items()))]. *)
Definition sorted (d : t) : t := fold_right insert_item [] d.

Definition keys (d : t) : list Z := map fst d.
End Ops.
End Dict.

(** ** Trades

    Modelled from the spec: the trade record of the transport layer
    ([wsclient], not part of this file).  The feed reads the timestamp,
    the price, the amount, the identifier, the side and the extra-columns
    map, whose ["instrument"] entry names the instrument.  Timestamps are
    [datetime] values, here an integer count of time units; prices and
    amounts are only carried around, never computed on. *)

Record Trade : Type := mkTrade {
  getDateTime : Z;
  getPrice : Z;
  getAmount : Z;
  getId : Z;
  isBuy : bool;
  getExtraColumns : list (string * string)
}.

(** [columns.get(key)] on the extra-columns map. *)
Fixpoint columns_get (key : string) (columns : list (string * string))
  : option string :=
  match columns with
  | [] => None
  | (k, v) :: rest => if String.eqb key k then Some v else columns_get key rest
  end.

(** [trade.getExtraColumns().get("instrument")]. *)
Definition instrumentOf (trade : Trade) : option string :=
  columns_get "instrument" (getExtraColumns trade).

(** ** class TradeBar(bar.Bar) *)

Inductive Frequency : Type :=
| FreqTRADE | FreqSECOND | FreqMINUTE | FreqHOUR | FreqDAY | FreqWEEK | FreqMONTH.

Module TradeBar.

(** [__init__(self, trade)]: the two private fields. *)
Record t : Type := mk {
  dateTime_ : Z;
  trade_ : Trade
}.

Definition init (trade : Trade) : t :=
  {| dateTime_ := getDateTime trade; trade_ := trade |}.

Definition getInstrument (b : t) : option string := instrumentOf (trade_ b).

(** [setUseAdjustedValue]: raises when asked for adjusted values, and
    otherwise returns without touching the bar. *)
Definition setUseAdjustedValue (b : t) (useAdjusted : bool) : Exn + t :=
  if useAdjusted then inl (Exception "Adjusted close is not available")
  else inr b.

Definition getTrade (b : t) : Trade := trade_ b.
Definition getTradeId (b : t) : Z := getId (trade_ b).
Definition getFrequency (b : t) : Frequency := FreqTRADE.
Definition getDateTime (b : t) : Z := dateTime_ b.
Definition getOpen (b : t) (adjusted : bool) : Z := getPrice (trade_ b).
Definition getHigh (b : t) (adjusted : bool) : Z := getPrice (trade_ b).
Definition getLow (b : t) (adjusted : bool) : Z := getPrice (trade_ b).
Definition getClose (b : t) (adjusted : bool) : Z := getPrice (trade_ b).
Definition getVolume (b : t) : Z := getAmount (trade_ b).
Definition getAdjClose (b : t) : option Z := None.
Definition getTypicalPrice (b : t) : Z := getPrice (trade_ b).
Definition getPrice (b : t) : Z := getPrice (trade_ b).
Definition getUseAdjValue (b : t) : bool := false.
Definition isSell (b : t) : bool := negb (isBuy (trade_ b)).
Definition isBuy (b : t) : bool := isBuy (trade_ b).

End TradeBar.

(** ** The trade buffer, [LiveTradeFeed.__tradeBars]

    A dict from timestamp to the list of pending entries; an entry is the
    one-key dict [{instrument: trade}] that [__onTrade] builds. *)

Definition BarDict : Type := list (option string * Trade).

Definition TradeBars : Type := Dict.t (list BarDict).

(** [bar.Bars] of pyalgotrade: the group of bars handed to the consumer;
    its timestamp is the one of its first bar. *)
Record Bars : Type := mkBars { barDict : BarDict }.

(** [str] of an integer and of a dict key that may be [None]. *)
Definition showZ (z : Z) : string := NilZero.string_of_int (Z.to_int z).

Definition showKey (key : option string) : string :=
  match key with
  | Some s => s
  | None => "None"
  end.

(** The loop of [Bars.__init__] over the items that follow the first: every
    bar must carry the timestamp of the first one. *)
Fixpoint checkSync (firstInstrument : option string) (firstDateTime : Z)
    (items : BarDict) : option Exn :=
  match items with
  | [] => None
  | (instrument, currentBar) :: rest =>
      if getDateTime currentBar =? firstDateTime
      then checkSync firstInstrument firstDateTime rest
      else Some (Exception
                   ("Bar data times are not in sync. "
                    ++ showKey instrument ++ " "
                    ++ showZ (getDateTime currentBar) ++ " != "
                    ++ showKey firstInstrument ++ " "
                    ++ showZ firstDateTime)%string)
  end.

(** [bar.Bars(barDict)], the constructor: it raises on an empty dict and
    on bars whose timestamps differ. *)
Definition Bars_init (d : BarDict) : Exn + Bars :=
  match d with
  | [] => inl (Exception "No bars supplied")
  | (instrument, firstBar) :: rest =>
      match checkSync instrument (getDateTime firstBar) rest with
      | Some e => inl e
      | None => inr (mkBars d)
      end
  end.

(** [ret = bar.Bars(tradeBar)] as the result of [getNextBars]. *)
Definition barsResult (tradeBar : BarDict) : Exn + option Bars :=
  match Bars_init tradeBar with
  | inl e => inl e
  | inr bars => inr (Some bars)
  end.

Definition barsDateTime (b : Bars) : option Z :=
  match barDict b with
  | [] => None
  | (_, trade) :: _ => Some (getDateTime trade)
  end.

(** The entry appended by [__onTrade]: the trade itself under its
    instrument. *)
Definition entryOf (trade : Trade) : BarDict := [(instrumentOf trade, trade)].

(** [__onTrade] on the buffer.  [inl KeyError] is the failing subscript of
    Python. *)
Definition tradeBars_onTrade (trade : Trade) (tb : TradeBars)
  : Exn + TradeBars :=
  let dateTime := getDateTime trade in
  let tb1 := if negb (Dict.mem dateTime tb) then Dict.set dateTime [] tb
             else tb in
  match Dict.get (getDateTime trade) tb1 with
  | None => inl KeyError
  | Some pending =>
      inr (Dict.set (getDateTime trade) (pending ++ [entryOf trade]) tb1)
  end.

(** [getNextBars] on the buffer: the value returned (or the exception
    raised) and the buffer that is left.  The entry is popped, and its key
    deleted, before [bar.Bars] is called and may raise. *)
Definition tradeBars_getNextBars (tb : TradeBars)
  : (Exn + option Bars) * TradeBars :=
  if (0 <? Z.of_nat (List.length tb)) then
    let tb1 := Dict.sorted tb in
    match tb1 with
    | [] => (inl StopIteration, tb1)
    | (dateTime, _) :: _ =>
        match Dict.get dateTime tb1 with
        | None => (inl KeyError, tb1)
        | Some [] => (inl IndexError, tb1)
        | Some (tradeBar :: rest) =>
            let tb2 := Dict.set dateTime rest tb1 in
            let tb3 := if Z.of_nat (List.length rest) =? 0
                       then Dict.pop dateTime tb2 else tb2 in
            (barsResult tradeBar, tb3)
        end
    end
  else (inr None, tb).

(** Feeding a list of trades, in arrival order. *)
Fixpoint feedTrades (trades : list Trade) (tb : TradeBars)
  : Exn + TradeBars :=
  match trades with
  | [] => inr tb
  | trade :: rest =>
      match tradeBars_onTrade trade tb with
      | inl e => inl e
      | inr tb' => feedTrades rest tb'
      end
  end.

(** [n] successive calls of [getNextBars], with everything they return. *)
Fixpoint drain (n : nat) (tb : TradeBars)
  : (Exn + list (option Bars)) * TradeBars :=
  match n with
  | O => (inr [], tb)
  | S n' =>
      match tradeBars_getNextBars tb with
      | (inl e, tb') => (inl e, tb')
      | (inr r, tb') =>
          match drain n' tb' with
          | (inl e, tb'') => (inl e, tb'')
          | (inr rs, tb'') => (inr (r :: rs), tb'')
          end
      end
  end.

(** ** The transport thread and its event queue

    Modelled from the spec: the queue protocol and the transport thread of
    [wsclient], which is not part of this file.  An event is a tagged
    value: a trade, an order-book update with an opaque payload, the
    disconnection marker, or any other tag. *)

Definition Payload : Type := string.

Inductive EventType : Type :=
| TRADE
| ORDER_BOOK_UPDATE
| DISCONNECTED
| OTHER (tag : Z).

Inductive Event : Type :=
| EvTrade (trade : Trade)
| EvOrderBookUpdate (update : Payload)
| EvDisconnected
| EvOther (tag : Z) (data : Payload).

Definition eventTypeOf (ev : Event) : EventType :=
  match ev with
  | EvTrade _ => TRADE
  | EvOrderBookUpdate _ => ORDER_BOOK_UPDATE
  | EvDisconnected => DISCONNECTED
  | EvOther tag _ => OTHER tag
  end.

Definition eventType_eqb (a b : EventType) : bool :=
  match a, b with
  | TRADE, TRADE => true
  | ORDER_BOOK_UPDATE, ORDER_BOOK_UPDATE => true
  | DISCONNECTED, DISCONNECTED => true
  | OTHER x, OTHER y => x =? y
  | _, _ => false
  end.

(** [eventType in eventFilter]. *)
Definition inFilter (ty : EventType) (eventFilter : list EventType) : bool :=
  existsb (eventType_eqb ty) eventFilter.

(** What one call of [waitInitialized(timeout)] observes: the thread is
    ready; or the wait timed out; or it timed out and, meanwhile, another
    thread of the caller has called [stop()] on the feed. *)
Inductive WaitTick : Type :=
| Ready
| NotYet
| StopRequested.

(** The thread object.  Its behaviour is scripted: what [start()] and
    [stop()] raise, if anything, and what the successive calls of
    [waitInitialized] observe; a script that has run out means a thread
    that never signals.  The rest is its state: liveness, the queue
    ([getQueue()]), and whether it was asked to terminate. *)
Record Thread : Type := mkThread {
  th_startRaises : option Exn;
  th_stopRaises : option Exn;
  th_ready : list WaitTick;
  th_alive : bool;
  th_queue : list Event;
  th_stopRequested : bool
}.

Definition th_setAlive (b : bool) (th : Thread) : Thread :=
  mkThread (th_startRaises th) (th_stopRaises th) (th_ready th) b
           (th_queue th) (th_stopRequested th).

Definition th_setReady (r : list WaitTick) (th : Thread) : Thread :=
  mkThread (th_startRaises th) (th_stopRaises th) r (th_alive th)
           (th_queue th) (th_stopRequested th).

Definition th_setQueue (q : list Event) (th : Thread) : Thread :=
  mkThread (th_startRaises th) (th_stopRaises th) (th_ready th) (th_alive th)
           q (th_stopRequested th).

Definition th_setStopRequested (b : bool) (th : Thread) : Thread :=
  mkThread (th_startRaises th) (th_stopRaises th) (th_ready th) (th_alive th)
           (th_queue th) b.

(** ** class LiveTradeFeed: the object and its surroundings *)

(** The attributes set by [__init__].  ([__orderBookUpdateEvent] is an
    observer event; what it emits is recorded in the effects below.) *)
Record Feed : Type := mkFeed {
  tradeBars : TradeBars;
  channels : list string;
  api : string;
  timeout : Z;
  thread : option Thread;
  enableReconnection : bool;
  stopped : bool
}.

(** What the feed does to its collaborators, oldest first: the log
    records, the events taken from the queue, the order-book updates
    emitted, the [stop()] calls sent to a thread. *)
Inductive Effect : Type :=
| LogInfo (msg : string)
| LogError (msg : string)
| Dequeued (ev : Event)
| Emitted (update : Payload)
| StopSent.

(** The feed together with its effects so far and with the results of the
    coming calls of [buildWebSocketClientThread]: an exception, or a new
    thread.  When the list has run out the constructor raises. *)
Record World : Type := mkWorld {
  feed : Feed;
  effects : list Effect;
  factory : list (Exn + Thread)
}.

Definition setFeed (f : Feed) (w : World) : World :=
  mkWorld f (effects w) (factory w).

Definition setTradeBars (tb : TradeBars) (w : World) : World :=
  let f := feed w in
  setFeed (mkFeed tb (channels f) (api f) (timeout f) (thread f)
                  (enableReconnection f) (stopped f)) w.

Definition setThread (th : option Thread) (w : World) : World :=
  let f := feed w in
  setFeed (mkFeed (tradeBars f) (channels f) (api f) (timeout f) th
                  (enableReconnection f) (stopped f)) w.

Definition setEnableReconnection (b : bool) (w : World) : World :=
  let f := feed w in
  setFeed (mkFeed (tradeBars f) (channels f) (api f) (timeout f) (thread f)
                  b (stopped f)) w.

Definition setStopped (b : bool) (w : World) : World :=
  let f := feed w in
  setFeed (mkFeed (tradeBars f) (channels f) (api f) (timeout f) (thread f)
                  (enableReconnection f) b) w.

Definition addEffect (e : Effect) (w : World) : World :=
  mkWorld (feed w) (effects w ++ [e]) (factory w).

Definition setFactory (fs : list (Exn + Thread)) (w : World) : World :=
  mkWorld (feed w) (effects w) fs.

(** ** Outcomes

    A method returns a value, raises, or is still inside one of its
    [while] loops when the fuel runs out. *)

Inductive Outcome (A : Type) : Type :=
| Ok (a : A) (w : World)
| Raise (e : Exn) (w : World)
| OutOfFuel.

Arguments Ok {A} a w.
Arguments Raise {A} e w.
Arguments OutOfFuel {A}.

Definition M (A : Type) : Type := World -> Outcome A.

Definition ret {A} (a : A) : M A := fun w => Ok a w.

Definition raise {A} (e : Exn) : M A := fun w => Raise e w.

Definition bind {A B} (m : M A) (k : A -> M B) : M B :=
  fun w =>
    match m w with
    | Ok a w' => k a w'
    | Raise e w' => Raise e w'
    | OutOfFuel => OutOfFuel
    end.

Declare Scope feed_scope.
Delimit Scope feed_scope with feed.

Notation "x <- m ;; k" := (bind m (fun x => k))
  (at level 61, m at next level, right associativity) : feed_scope.
Notation "m ;; k" := (bind m (fun _ => k))
  (at level 61, right associativity) : feed_scope.

Local Open Scope feed_scope.

Definition modify (f : World -> World) : M unit := fun w => Ok tt (f w).

Definition gets {A} (f : World -> A) : M A := fun w => Ok (f w) w.

(** [try: body except Exception as e: handler(e)]. *)
Definition tryExcept {A} (body : M A) (handler : Exn -> M A) : M A :=
  fun w =>
    match body w with
    | Raise e w' => handler e w'
    | o => o
    end.

(** [try: body except queue.Empty: pass], followed by [return ret] with
    the value [ret] has when the exception arrives. *)
Definition exceptEmpty (ret_ : bool) (body : M bool) : M bool :=
  fun w =>
    match body w with
    | Raise QueueEmpty w' => Ok ret_ w'
    | o => o
    end.

Definition logInfo (msg : string) : M unit := modify (addEffect (LogInfo msg)).
Definition logError (msg : string) : M unit := modify (addEffect (LogError msg)).

(** ** The methods of LiveTradeFeed *)

(** [QUEUE_TIMEOUT = 0.01] seconds, in milliseconds. *)
Definition QUEUE_TIMEOUT : Z := 10.

(** [__init__(self, api, instruments, timeout=10, maxLen=None)]; the data
    series that the base class registers per instrument are not part of
    the feed's own state. *)
Definition LiveTradeFeed (api_ : string) (instruments : list string)
    (timeout_ : Z) : Feed :=
  {| tradeBars := [];
     channels := fold_left (fun chans instrument => chans ++ [instrument])
                           instruments [];
     api := api_;
     timeout := timeout_;
     thread := None;
     enableReconnection := true;
     stopped := false |}.

(** [buildWebSocketClientThread]: the next result of the constructor. *)
Definition buildWebSocketClientThread : M Thread :=
  fun w =>
    match factory w with
    | [] => Raise (Exception "transport unavailable") w
    | inl e :: rest => Raise e (setFactory rest w)
    | inr th :: rest => Ok th (setFactory rest w)
    end.

Definition enableReconection (enable : bool) : M unit :=
  modify (setEnableReconnection enable).

(** [self.__thread.start()]. *)
Definition threadStart : M unit :=
  fun w =>
    match thread (feed w) with
    | None => Raise AttributeError w
    | Some th =>
        match th_startRaises th with
        | Some e => Raise e w
        | None => Ok tt (setThread (Some (th_setAlive true th)) w)
        end
    end.

(** [self.__thread.stop()]. *)
Definition threadStop : M unit :=
  fun w =>
    match thread (feed w) with
    | None => Raise AttributeError w
    | Some th =>
        let w1 := addEffect StopSent w in
        match th_stopRaises th with
        | Some e => Raise e w1
        | None => Ok tt (setThread (Some (th_setStopRequested true th)) w1)
        end
    end.

(** [self.__thread.is_alive()]. *)
Definition threadIsAlive : M bool :=
  fun w =>
    match thread (feed w) with
    | None => Raise AttributeError w
    | Some th => Ok (th_alive th) w
    end.

(** [stop]. *)
Definition stop : M unit :=
  tryExcept
    (modify (setStopped true) ;;
     th <- gets (fun w => thread (feed w)) ;;
     match th with
     | None => ret tt
     | Some _ =>
         alive <- threadIsAlive ;;
         if alive then
           logInfo "Stopping websocket client." ;;
           threadStop
         else ret tt
     end)
    (fun e => logError ("Error shutting down client: " ++ str e)%string).

(** [eof]. *)
Definition eof (w : World) : bool := stopped (feed w).

(** [barsHaveAdjClose]. *)
Definition barsHaveAdjClose (w : World) : bool := false.

(** [peekDateTime]. *)
Definition peekDateTime (w : World) : option Z := None.

(** [self.__thread.waitInitialized(self.__timeout)]: the next observation
    of the script. *)
Definition waitInitialized (timeout_ : Z) : M WaitTick :=
  fun w =>
    match thread (feed w) with
    | None => Raise AttributeError w
    | Some th =>
        match th_ready th with
        | [] => Ok NotYet w
        | tick :: rest => Ok tick (setThread (Some (th_setReady rest th)) w)
        end
    end.

(** The loop [while not initialized and not self.__stopped]. *)
Fixpoint waitLoop (fuel : nat) (initialized : bool) : M bool :=
  fun w =>
    if negb initialized && negb (stopped (feed w)) then
      match fuel with
      | O => OutOfFuel
      | S fuel' =>
          (tick <- waitInitialized (timeout (feed w)) ;;
           match tick with
           | Ready => waitLoop fuel' true
           | NotYet => waitLoop fuel' false
           | StopRequested => stop ;; waitLoop fuel' false
           end) w
      end
    else Ok initialized w.

(** [__initializeClient]. *)
Definition initializeClient (fuel : nat) : M bool :=
  logInfo "Initializing websocket client" ;;
  tryExcept
    (th <- buildWebSocketClientThread ;;
     modify (setThread (Some th)) ;;
     threadStart)
    (fun e => logError ("Error connecting : " ++ str e)%string) ;;
  logInfo "Waiting for websocket initialization to complete" ;;
  initialized <- waitLoop fuel false ;;
  (if initialized : bool then logInfo "Initialization completed"
   else logError "Initialization failed") ;;
  ret initialized.

(** The loop [while not self.__stopped and not self.__initializeClient()]. *)
Fixpoint reconnectLoop (fuel : nat) : M unit :=
  fun w =>
    if negb (stopped (feed w)) then
      match fuel with
      | O => OutOfFuel
      | S fuel' =>
          (initialized <- initializeClient fuel' ;;
           if initialized : bool then ret tt else reconnectLoop fuel') w
      end
    else Ok tt w.

(** [__onDisconnected]. *)
Definition onDisconnected (fuel : nat) : M unit :=
  fun w =>
    if enableReconnection (feed w) then
      (logInfo "Reconnecting" ;; reconnectLoop fuel) w
    else if negb (stopped (feed w)) then
      (logInfo "Stopping" ;; modify (setStopped true)) w
    else Ok tt w.

(** [__onTrade]. *)
Definition onTrade (trade : Trade) : M unit :=
  fun w =>
    match tradeBars_onTrade trade (tradeBars (feed w)) with
    | inl e => Raise e w
    | inr tb => Ok tt (setTradeBars tb w)
    end.

(** [getNextBars]. *)
Definition getNextBars : M (option Bars) :=
  fun w =>
    match tradeBars_getNextBars (tradeBars (feed w)) with
    | (inl e, tb) => Raise e (setTradeBars tb w)
    | (inr r, tb) => Ok r (setTradeBars tb w)
    end.

(** [self.__thread.getQueue().get(True, LiveTradeFeed.QUEUE_TIMEOUT)]:
    the queue as it stands when the wait ends. *)
Definition queueGet (block : bool) (timeout_ : Z) : M Event :=
  fun w =>
    match thread (feed w) with
    | None => Raise AttributeError w
    | Some th =>
        match th_queue th with
        | [] => Raise QueueEmpty w
        | ev :: rest =>
            Ok ev (addEffect (Dequeued ev)
                     (setThread (Some (th_setQueue rest th)) w))
        end
    end.

(** [self.__orderBookUpdateEvent.emit(eventData)]. *)
Definition emitOrderBookUpdate (update : Payload) : M unit :=
  modify (addEffect (Emitted update)).

(** [eventFilter is not None and eventType not in eventFilter]. *)
Definition excluded (eventFilter : option (list EventType)) (ty : EventType)
  : bool :=
  match eventFilter with
  | None => false
  | Some types => negb (inFilter ty types)
  end.

(** The [if]/[elif] chain of [__dispatchImpl] on the event type, entered
    with [ret = True]; its value is the final [ret]. *)
Definition routeEvent (fuel : nat) (ev : Event) : M bool :=
  match ev with
  | EvTrade trade =>
      exceptEmpty true (onTrade trade ;; ret true)
  | EvOrderBookUpdate update =>
      exceptEmpty true (emitOrderBookUpdate update ;; ret true)
  | EvDisconnected =>
      exceptEmpty true (onDisconnected fuel ;; ret true)
  | EvOther tag data =>
      logError ("Invalid event received to dispatch: "
                ++ showZ tag ++ " - " ++ data)%string ;;
      ret false
  end.

(** [__dispatchImpl].  The one [try] of the source is split where [ret]
    changes: [queue.Empty] arriving before [ret = True] (or in the last
    branch, after [ret = False]) gives [False], after it [True]. *)
Definition dispatchImpl (fuel : nat) (eventFilter : option (list EventType))
  : M bool :=
  exceptEmpty false
    (ev <- queueGet true QUEUE_TIMEOUT ;;
     if excluded eventFilter (eventTypeOf ev) then ret false
     else routeEvent fuel ev).

(** [start]; the [start] of the base class does nothing. *)
Definition start (fuel : nat) : M unit :=
  th <- gets (fun w => thread (feed w)) ;;
  match th with
  | Some _ => raise (Exception "Already running")
  | None =>
      initialized <- initializeClient fuel ;;
      if negb initialized then
        modify (setStopped true) ;;
        raise (Exception "Initialization failed")
      else ret tt
  end.

(** ** Properties of the buffer used in the statements *)

(** No timestamp is bound to an empty list. *)
Definition noEmptyLists (tb : TradeBars) : Prop :=
  Forall (fun kv => snd kv <> []) tb.

(** The keys of a dict are distinct. *)
Definition uniqueKeys (tb : TradeBars) : Prop := NoDup (Dict.keys tb).

(** The trades of a list that carry the timestamp [k], in their order. *)
Definition sameTime (k : Z) (trade : Trade) : bool := getDateTime trade =? k.

Definition group (k : Z) (trades : list Trade) : list Trade :=
  filter (sameTime k) trades.

(** Timestamps never decrease along a list of trades. *)
Definition timeOrdered (trades : list Trade) : Prop :=
  StronglySorted (fun a b => getDateTime a <= getDateTime b) trades.

(** What [getNextBars] returns for a trade that was buffered. *)
Definition barsOf (trade : Trade) : option Bars :=
  Some (mkBars (entryOf trade)).

(** An entry that [bar.Bars] accepts. *)
Definition accepted (entry : BarDict) : Prop :=
  Bars_init entry = inr (mkBars entry).

(** Every buffered entry is one that [bar.Bars] accepts. *)
Definition entriesAccepted (tb : TradeBars) : Prop :=
  Forall accepted (flat_map snd tb).

(** How [getNextBars] ends once it has popped [entry]: with the bars built
    from it, or with what [bar.Bars] raises. *)
Definition handOut (entry : BarDict) (w : World) : Outcome (option Bars) :=
  match Bars_init entry with
  | inr bars => Ok (Some bars) w
  | inl e => Raise e w
  end.

(** Order of two items of a dict by their keys. *)
Definition keyLe {V : Type} (a b : Z * V) : Prop := fst a <= fst b.
Definition keyLt {V : Type} (a b : Z * V) : Prop := fst a < fst b.

(** The entries of a buffer in the order in which [getNextBars] will hand
    them out: ascending timestamps, each list from its head. *)
Definition pendingOrder (tb : TradeBars) : list BarDict :=
  flat_map snd (Dict.sorted tb).

(** The buffer holds exactly the given trades: each timestamp that occurs
    is bound to the entries of its trades, in arrival order, no other
    timestamp is bound, and the entries are those of the trades. *)
Definition holds (tb : TradeBars) (trades : list Trade) : Prop :=
  uniqueKeys tb /\
  (forall k, Dict.get k tb =
             match group k trades with
             | [] => None
             | g => Some (map entryOf g)
             end) /\
  Permutation (flat_map snd tb) (map entryOf trades).

(** The trades of a list regrouped by the timestamps of a dict, in the
    order of its keys. *)
Definition regroup {V : Type} (d : Dict.t V) (trades : list Trade)
  : list Trade :=
  flat_map (fun kv => group (fst kv) trades) d.

(** The invariant of the buffer: a dict, none of whose lists is empty. *)
Definition bufferInvariant (tb : TradeBars) : Prop :=
  uniqueKeys tb /\ noEmptyLists tb.

(** [__onTrade] for each trade of a list, in arrival order. *)
Fixpoint onTrades (trades : list Trade) : M unit :=
  match trades with
  | [] => ret tt
  | trade :: rest => onTrade trade ;; onTrades rest
  end.

(** [n] successive calls of [getNextBars], with everything they return. *)
Fixpoint getNextBarsTimes (n : nat) : M (list (option Bars)) :=
  match n with
  | O => ret []
  | S n' =>
      r <- getNextBars ;;
      rs <- getNextBarsTimes n' ;;
      ret (r :: rs)
  end.

(** The events a stretch of effects took from the queue. *)
Definition isDequeued (e : Effect) : bool :=
  match e with Dequeued _ => true | _ => false end.

Definition dequeued (es : list Effect) : list Effect := filter isDequeued es.

(** The tags that [__dispatchImpl] routes. *)
Definition knownTag (ty : EventType) : bool :=
  match ty with
  | TRADE | ORDER_BOOK_UPDATE | DISCONNECTED => true
  | OTHER _ => false
  end.

(** ** Concrete trades, threads and feeds

    The two trades of the spec's scenario (timestamps in milliseconds of
    the day, prices in hundredths) and an earlier one. *)

Definition tradeA : Trade :=
  mkTrade 36000100 15000 5 1 true [("instrument", "AAPL")].

Definition tradeB : Trade :=
  mkTrade 36000100 15020 3 2 false [("instrument", "AAPL")].

Definition tradeEarly : Trade :=
  mkTrade 35999000 14990 7 3 true [("instrument", "AAPL")].

(** A thread that starts, is ready at the second poll, and has the given
    events queued. *)
Definition liveThread (q : list Event) : Thread :=
  mkThread None None [NotYet; Ready] false q false.

(** A thread whose [stop()] raises. *)
Definition stubbornThread : Thread :=
  mkThread None (Some (Exception "socket closed")) [Ready] false [] false.

(** A feed just built, with nothing logged yet. *)
Definition newWorld (threads : list (Exn + Thread)) : World :=
  {| feed := LiveTradeFeed "api" ["AAPL"] 10;
     effects := [];
     factory := threads |}.

(** The world a call leaves behind, whatever its outcome. *)
Definition after {A} (o : Outcome A) (w : World) : World :=
  match o with
  | Ok _ w' => w'
  | Raise _ w' => w'
  | OutOfFuel => w
  end.

(** A feed that was started with one live thread. *)
Definition runningWorld (q : list Event) : World :=
  let w := newWorld [inr (liveThread q)] in after (start 2 w) w.

(** The three trades above, buffered. *)
Definition bufferedWorld : World :=
  after (onTrades [tradeA; tradeEarly; tradeB] (newWorld [])) (newWorld []).

(** ** Effects of a call

    [extends w w']: the effects of [w'] are those of [w] followed by a
    stretch in which nothing is taken from the queue. *)
Definition extends (w w' : World) : Prop :=
  exists suffix, effects w' = effects w ++ suffix /\ dequeued suffix = [].

(** A computation that takes nothing from the queue. *)
Definition quiet {A} (m : M A) : Prop :=
  forall w,
    match m w with
    | Ok _ w' => extends w w'
    | Raise _ w' => extends w w'
    | OutOfFuel => True
    end.

(** What processing an event that was taken from the queue does to the
    world: a TRADE is inserted into the buffer by [__onTrade], an
    ORDER_BOOK_UPDATE is emitted to the observers with its payload as it
    came, a DISCONNECTED is handed to [__onDisconnected], which returns.
    Another tag is not processed. *)
Definition processes (fuel : nat) (ev : Event) (w1 w' : World) : Prop :=
  match ev with
  | EvTrade trade =>
      exists tb,
        tradeBars_onTrade trade (tradeBars (feed w1)) = inr tb /\
        w' = setTradeBars tb w1
  | EvOrderBookUpdate update => w' = addEffect (Emitted update) w1
  | EvDisconnected => onDisconnected fuel w1 = Ok tt w'
  | EvOther _ _ => False
  end.

(** The world right after the head [ev] of the queue was taken. *)
Definition afterGet (th : Thread) (ev : Event) (q : list Event) (w : World)
  : World :=
  addEffect (Dequeued ev) (setThread (Some (th_setQueue q th)) w).

(** A started feed with reconnection disabled, a disconnection queued and
    a trade behind it. *)
Definition lastTradeWorld : World :=
  let w := runningWorld [EvDisconnected; EvTrade tradeA] in
  after (enableReconection false w) w.

(** A started feed with one event of each kind queued. *)
Definition busyWorld : World :=
  runningWorld [EvOther 7 "ping"; EvTrade tradeA; EvOrderBookUpdate "book"].

(** A thread that is never ready, while another thread of the caller
    calls [stop()] during the second poll. *)
Definition stalledThread : Thread :=
  mkThread None None [NotYet; StopRequested] false [] false.

(** A thread whose [start()] raises, which then never signals, and the
    caller's [stop()] during the second poll. *)
Definition deadThread : Thread :=
  mkThread (Some (Exception "cannot start")) None [NotYet; StopRequested]
           false [] false.

(** A started feed whose thread refuses to stop. *)
Definition stubbornWorld : World :=
  let w := newWorld [inr stubbornThread] in after (start 1 w) w.

(** A feed with [tradeA] buffered. *)
Definition oneTradeWorld : World :=
  after (onTrade tradeA (newWorld [])) (newWorld []).

(** ** What a call leaves alone

    [respects R m]: whenever [m] returns or raises, the world it leaves
    is related by [R] to the world it started from. *)
Definition respects {A} (R : World -> World -> Prop) (m : M A) : Prop :=
  forall w,
    match m w with
    | Ok _ w' => R w w'
    | Raise _ w' => R w w'
    | OutOfFuel => True
    end.

(** The trade buffer is what it was. *)
Definition sameBuffer (w w' : World) : Prop :=
  tradeBars (feed w') = tradeBars (feed w).

(** A stop flag that was up is still up. *)
Definition staysStopped (w w' : World) : Prop :=
  stopped (feed w) = true -> stopped (feed w') = true.

(** No call of [buildWebSocketClientThread] was made. *)
Definition sameFactory (w w' : World) : Prop := factory w' = factory w.

(** A feed that had a thread still has one. *)
Definition keepsThread (w w' : World) : Prop :=
  thread (feed w) <> None -> thread (feed w') <> None.

(** At most one call of [buildWebSocketClientThread] was made. *)
Definition atMostOneBuild (w w' : World) : Prop :=
  factory w' = factory w \/ factory w' = tl (factory w).

(** [n] successive calls of [__dispatchImpl], with what they return. *)
Fixpoint dispatchImplTimes (fuel : nat) (eventFilter : option (list EventType))
    (n : nat) : M (list bool) :=
  match n with
  | O => ret []
  | S n' =>
      r <- dispatchImpl fuel eventFilter ;;
      rs <- dispatchImplTimes fuel eventFilter n' ;;
      ret (r :: rs)
  end.

(** A thread that is ready at the poll number [n + 1]. *)
Definition slowThread (n : nat) (q : list Event) : Thread :=
  mkThread None None (repeat NotYet n ++ [Ready]) false q false.

(** A thread that is ready at once, twice over. *)
Definition twiceReadyThread : Thread :=
  mkThread None None [Ready; Ready] false [] false.

(** A started feed whose next constructor call will raise. *)
Definition brokenFactoryWorld : World :=
  let w := newWorld [inr twiceReadyThread;
                     inl (Exception "connection refused")] in
  after (start 1 w) w.

(** A feed that was stopped before it was ever started. *)
Definition stoppedEarlyWorld : World :=
  let w := newWorld [inr (liveThread [])] in after (stop w) w.

(** Three trades queued, with an order-book update behind them. *)
Definition tradesQueue : list Event :=
  map EvTrade [tradeA; tradeEarly; tradeB] ++ [EvOrderBookUpdate "book"].

(** The thread of [runningWorld q]. *)
Definition runningThread (q : list Event) : Thread :=
  th_setReady [] (th_setAlive true (liveThread q)).

(** A started feed with a disconnection queued, a trade behind it, and a
    slow but sound thread for the constructor to deliver. *)
Definition reconnectingWorld : World :=
  let w := newWorld [inr (liveThread [EvDisconnected; EvTrade tradeA]);
                     inr (slowThread 2 [EvTrade tradeB])] in
  after (start 2 w) w.

(** * Theorems *)

(** ** Dictionaries *)

Section DictFacts.
Variable V : Type.
Implicit Types (d : Dict.t V) (k : Z) (v : V).

Lemma get_set_same d k v : Dict.get k (Dict.set k v d) = Some v.
Proof.
  induction d as [|[k' v'] d IH]; simpl.
  - now rewrite Z.eqb_refl.
  - destruct (k =? k') eqn:E; simpl; rewrite ?Z.eqb_refl, ?E; auto.
Qed.

Lemma get_set_other d k k' v :
  k' <> k -> Dict.get k' (Dict.set k v d) = Dict.get k' d.
Proof.
  intros Hne. induction d as [|[k0 v0] d IH]; simpl.
  - destruct (k' =? k) eqn:E; auto. apply Z.eqb_eq in E. contradiction.
  - destruct (k =? k0) eqn:E; simpl.
    + apply Z.eqb_eq in E. subst k0.
      destruct (k' =? k) eqn:E'; auto. apply Z.eqb_eq in E'. contradiction.
    + now rewrite IH.
Qed.

Lemma get_None_keys d k : Dict.get k d = None <-> ~ In k (Dict.keys d).
Proof.
  induction d as [|[k' v'] d IH]; simpl.
  - tauto.
  - destruct (k =? k') eqn:E.
    + apply Z.eqb_eq in E. subst. split; [discriminate | tauto].
    + apply Z.eqb_neq in E. rewrite IH. intuition congruence.
Qed.

Lemma get_Some_In d k v : Dict.get k d = Some v -> In (k, v) d.
Proof.
  induction d as [|[k' v'] d IH]; simpl; [discriminate|].
  destruct (k =? k') eqn:E.
  - apply Z.eqb_eq in E. intros [= ->]. subst. now left.
  - auto.
Qed.

Lemma In_get_Some d k v :
  NoDup (Dict.keys d) -> In (k, v) d -> Dict.get k d = Some v.
Proof.
  induction d as [|[k' v'] d IH]; simpl; [tauto|].
  intros Hnd [Heq | Hin]; inversion Hnd as [|? ? Hnotin Hnd']; subst.
  - injection Heq as -> ->. now rewrite Z.eqb_refl.
  - destruct (k =? k') eqn:E; auto.
    apply Z.eqb_eq in E. subst k'. exfalso. apply Hnotin.
    change k with (fst (k, v)). now apply in_map.
Qed.

Lemma keys_set d k v :
  Dict.keys (Dict.set k v d)
  = if Dict.mem k d then Dict.keys d else Dict.keys d ++ [k].
Proof.
  unfold Dict.mem.
  induction d as [|[k' v'] d IH]; simpl; auto.
  destruct (k =? k') eqn:E; simpl.
  - apply Z.eqb_eq in E. now subst.
  - rewrite IH. now destruct (Dict.get k d).
Qed.

Lemma uniqueKeys_set d k v :
  NoDup (Dict.keys d) -> NoDup (Dict.keys (Dict.set k v d)).
Proof.
  intros Hnd. rewrite keys_set. unfold Dict.mem.
  destruct (Dict.get k d) eqn:E; auto.
  apply get_None_keys in E.
  apply NoDup_app; auto.
  - repeat constructor. simpl. tauto.
  - intros x Hx [<- | []]. contradiction.
Qed.

(** Sorting. *)

Lemma insert_item_perm kv d : Permutation (Dict.insert_item kv d) (kv :: d).
Proof.
  induction d as [|kv' d IH]; simpl; auto.
  destruct (fst kv <=? fst kv'); auto.
  rewrite IH. apply perm_swap.
Qed.

Lemma sorted_perm d : Permutation (Dict.sorted d) d.
Proof.
  induction d as [|kv d IH]; simpl; auto.
  rewrite insert_item_perm. now constructor.
Qed.

Lemma insert_item_sorted kv d :
  StronglySorted keyLe d -> StronglySorted keyLe (Dict.insert_item kv d).
Proof.
  induction 1 as [|kv' d Hs IH Hall]; simpl.
  - repeat constructor.
  - destruct (fst kv <=? fst kv') eqn:E.
    + apply Z.leb_le in E. constructor.
      * now constructor.
      * constructor; auto.
        eapply Forall_impl; [|exact Hall]. unfold keyLe. intros; lia.
    + apply Z.leb_gt in E. constructor; auto.
      eapply Permutation_Forall.
      * symmetry. apply insert_item_perm.
      * constructor; auto. unfold keyLe. lia.
Qed.

Lemma sorted_sorted d : StronglySorted keyLe (Dict.sorted d).
Proof.
  induction d; simpl; [constructor | now apply insert_item_sorted].
Qed.

Lemma sorted_fixpoint d : StronglySorted keyLe d -> Dict.sorted d = d.
Proof.
  induction 1 as [|kv d Hs IH Hall]; simpl; auto.
  rewrite IH. destruct d as [|kv' d]; simpl; auto.
  inversion Hall as [|? ? Hle _]; subst.
  apply Z.leb_le in Hle. now rewrite Hle.
Qed.

Lemma keys_perm d d' :
  Permutation d d' -> Permutation (Dict.keys d) (Dict.keys d').
Proof. apply Permutation_map. Qed.

Lemma sorted_uniqueKeys d :
  NoDup (Dict.keys d) -> NoDup (Dict.keys (Dict.sorted d)).
Proof.
  intros H. eapply Permutation_NoDup; [|exact H].
  apply keys_perm. symmetry. apply sorted_perm.
Qed.

Lemma sorted_get d k :
  NoDup (Dict.keys d) -> Dict.get k (Dict.sorted d) = Dict.get k d.
Proof.
  intros Hnd. destruct (Dict.get k d) as [v|] eqn:E.
  - apply In_get_Some; [now apply sorted_uniqueKeys|].
    eapply Permutation_in; [symmetry; apply sorted_perm|].
    now apply get_Some_In.
  - apply get_None_keys. apply get_None_keys in E. intros Hin. apply E.
    eapply Permutation_in; [|exact Hin]. apply keys_perm, sorted_perm.
Qed.

Lemma strict_of_unique d :
  StronglySorted keyLe d -> NoDup (Dict.keys d) -> StronglySorted keyLt d.
Proof.
  induction 1 as [|kv d Hs IH Hall]; intros Hnd; constructor;
    inversion Hnd as [|? ? Hnotin Hnd']; subst; auto.
  rewrite Forall_forall in *. intros x Hx.
  specialize (Hall x Hx). unfold keyLe, keyLt in *.
  assert (fst x <> fst kv).
  { intros Heq. apply Hnotin. rewrite <- Heq. now apply in_map. }
  lia.
Qed.

End DictFacts.

(** ** The trade buffer *)

Section BufferFacts.
Implicit Types (tb : TradeBars) (trade : Trade) (trades : list Trade).

Lemma noEmptyLists_perm tb tb' :
  Permutation tb tb' -> noEmptyLists tb -> noEmptyLists tb'.
Proof. intros Hp H. eapply Permutation_Forall; eauto. Qed.

(** One call of [getNextBars] on a well-formed, non-empty buffer. *)
Lemma getNextBars_step tb :
  uniqueKeys tb -> noEmptyLists tb -> tb <> [] ->
  exists entry tb',
    tradeBars_getNextBars tb = (barsResult entry, tb') /\
    pendingOrder tb = entry :: pendingOrder tb' /\
    uniqueKeys tb' /\ noEmptyLists tb' /\ StronglySorted keyLe tb'.
Proof.
  intros Hu Hne Hnil. unfold tradeBars_getNextBars, pendingOrder.
  assert (Hlen : (0 <? Z.of_nat (List.length tb)) = true).
  { apply Z.ltb_lt. destruct tb; [congruence | simpl; lia]. }
  rewrite Hlen. clear Hlen.
  pose proof (sorted_perm tb) as Hperm.
  pose proof (sorted_sorted tb) as Hsorted.
  apply sorted_uniqueKeys in Hu.
  apply (noEmptyLists_perm (Permutation_sym Hperm)) in Hne.
  destruct (Dict.sorted tb) as [|[k pending] more] eqn:Es.
  { apply Permutation_nil in Hperm. congruence. }
  simpl. rewrite Z.eqb_refl.
  inversion Hne as [|? ? Hpending Hmore]; subst. simpl in Hpending.
  inversion Hu as [|? ? Hnotin Hu']; subst.
  inversion Hsorted as [|? ? Hsorted' Hall]; subst.
  destruct pending as [|entry rest]; [congruence|].
  destruct rest as [|entry' rest]; simpl.
  - rewrite Z.eqb_refl. exists entry, more. repeat split; auto.
    now rewrite (sorted_fixpoint Hsorted').
  - exists entry, ((k, entry' :: rest) :: more).
    assert (Hs2 : StronglySorted keyLe ((k, entry' :: rest) :: more)).
    { constructor; auto. }
    repeat split; auto.
    + now rewrite (sorted_fixpoint Hs2).
    + constructor; auto. simpl. congruence.
Qed.

Lemma pendingOrder_nil tb :
  noEmptyLists tb -> pendingOrder tb = [] -> tb = [].
Proof.
  unfold pendingOrder. intros Hne Hnil.
  pose proof (sorted_perm tb) as Hperm.
  apply (noEmptyLists_perm (Permutation_sym Hperm)) in Hne.
  destruct (Dict.sorted tb) as [|[k pending] more].
  - now apply Permutation_nil in Hperm.
  - inversion Hne as [|? ? Hpending _]; subst. simpl in *.
    destruct pending; [congruence | discriminate].
Qed.

Lemma barsResult_accepted entry :
  accepted entry -> barsResult entry = inr (Some (mkBars entry)).
Proof. unfold accepted, barsResult. now intros ->. Qed.

Lemma accepted_entryOf trade : accepted (entryOf trade).
Proof. reflexivity. Qed.

Lemma accepted_entries trades : Forall accepted (map entryOf trades).
Proof.
  apply Forall_forall. intros entry Hin.
  apply in_map_iff in Hin as (trade & <- & _). apply accepted_entryOf.
Qed.

(** Draining a well-formed buffer whose entries [bar.Bars] accepts: as
    many calls as there are pending entries hand them out in their
    pending order and leave nothing. *)
Lemma drain_pendingOrder n :
  forall tb,
    uniqueKeys tb -> noEmptyLists tb ->
    Forall accepted (pendingOrder tb) ->
    List.length (pendingOrder tb) = n ->
    drain n tb = (inr (map (fun e => Some (mkBars e)) (pendingOrder tb)), []).
Proof.
  induction n as [|n IH]; intros tb Hu Hne Hacc Hlen.
  - apply length_zero_iff_nil in Hlen.
    rewrite Hlen. apply pendingOrder_nil in Hlen; auto. now subst.
  - assert (Hnil : tb <> []).
    { intros ->. discriminate. }
    destruct (getNextBars_step Hu Hne Hnil)
      as (entry & tb' & Hstep & Hpend & Hu' & Hne' & _).
    rewrite Hpend in Hacc. inversion Hacc as [|? ? Hentry Hacc']; subst.
    simpl. rewrite Hstep, Hpend, (barsResult_accepted Hentry).
    rewrite Hpend in Hlen.
    simpl in Hlen. injection Hlen as Hlen.
    now rewrite (IH tb' Hu' Hne' Hacc' Hlen).
Qed.

Lemma entries_set_absent tb k pending :
  Dict.get k tb = None ->
  flat_map snd (Dict.set k pending tb) = flat_map snd tb ++ pending.
Proof.
  induction tb as [|[k' l'] tb IH]; simpl; intros Hget.
  - now rewrite app_nil_r.
  - destruct (k =? k'); [discriminate|]. simpl.
    now rewrite IH, app_assoc.
Qed.

Lemma entries_set_present tb k pending more :
  Dict.get k tb = Some pending ->
  Permutation (flat_map snd (Dict.set k (pending ++ more) tb))
              (flat_map snd tb ++ more).
Proof.
  induction tb as [|[k' l'] tb IH]; simpl; intros Hget; [discriminate|].
  destruct (k =? k'); simpl.
  - injection Hget as ->. rewrite <- !app_assoc.
    apply Permutation_app_head, Permutation_app_comm.
  - rewrite <- app_assoc. apply Permutation_app_head. auto.
Qed.

(** [__onTrade] keeps the buffer in step with the trades received. *)
Lemma onTrade_holds tb trades trade :
  holds tb trades ->
  exists tb',
    tradeBars_onTrade trade tb = inr tb' /\ holds tb' (trades ++ [trade]).
Proof.
  intros (Hu & Hget & Hperm). unfold tradeBars_onTrade.
  set (k := getDateTime trade).
  set (tb1 := if negb (Dict.mem k tb) then Dict.set k [] tb else tb).
  assert (Hu1 : uniqueKeys tb1).
  { subst tb1. destruct (negb (Dict.mem k tb)); auto.
    now apply uniqueKeys_set. }
  assert (Hget1 : Dict.get k tb1 = Some (map entryOf (group k trades))).
  { subst tb1. unfold Dict.mem. rewrite (Hget k).
    destruct (group k trades) eqn:Eg; simpl.
    - apply get_set_same.
    - now rewrite (Hget k), Eg. }
  assert (Hperm1 : flat_map snd tb1 = flat_map snd tb).
  { subst tb1. unfold Dict.mem.
    destruct (Dict.get k tb) eqn:Eg; simpl; auto.
    rewrite entries_set_absent by auto. apply app_nil_r. }
  rewrite Hget1. eexists. split; [reflexivity|]. split; [|split].
  - now apply uniqueKeys_set.
  - intros k'. unfold group. rewrite filter_app. simpl.
    destruct (Z.eq_dec k' k) as [-> | Hne].
    + rewrite get_set_same.
      assert (Hk : sameTime k trade = true) by apply Z.eqb_refl.
      rewrite Hk. fold (group k trades).
      replace (map entryOf (group k trades) ++ [entryOf trade])
        with (map entryOf (group k trades ++ [trade]))
        by (rewrite map_app; reflexivity).
      destruct (group k trades ++ [trade]) eqn:E; auto.
      now apply app_eq_nil in E as [_ [=]].
    + rewrite get_set_other by auto.
      assert (Hk : sameTime k' trade = false).
      { apply Z.eqb_neq. fold k. auto. }
      rewrite Hk.
      rewrite app_nil_r. fold (group k' trades). rewrite <- Hget.
      subst tb1. destruct (negb (Dict.mem k tb)); auto.
      now apply get_set_other.
  - rewrite (@entries_set_present tb1 k _ [entryOf trade] Hget1), Hperm1,
      map_app.
    simpl.
    now apply Permutation_app_tail.
Qed.

Lemma holds_empty : holds [] [].
Proof. repeat split; simpl; auto; constructor. Qed.

Lemma feedTrades_holds trades :
  forall tb received,
    holds tb received ->
    exists tb',
      feedTrades trades tb = inr tb' /\ holds tb' (received ++ trades).
Proof.
  induction trades as [|trade trades IH]; intros tb received Hh; simpl.
  - exists tb. now rewrite app_nil_r.
  - destruct (onTrade_holds trade Hh) as (tb1 & -> & Hh1).
    destruct (IH _ _ Hh1) as (tb' & -> & Hh').
    exists tb'. now rewrite <- app_assoc in Hh'.
Qed.

Lemma holds_values tb trades k pending :
  holds tb trades -> In (k, pending) tb ->
  pending = map entryOf (group k trades) /\ pending <> [].
Proof.
  intros (Hu & Hget & _) Hin.
  apply In_get_Some in Hin; auto. rewrite Hget in Hin.
  destruct (group k trades); [discriminate|].
  injection Hin as <-. split; auto. discriminate.
Qed.

Lemma holds_noEmptyLists tb trades : holds tb trades -> noEmptyLists tb.
Proof.
  intros Hh. apply Forall_forall. intros [k pending] Hin.
  now destruct (holds_values _ _ Hh Hin).
Qed.

Lemma group_time k trades trade :
  In trade (group k trades) -> getDateTime trade = k.
Proof.
  unfold group. rewrite filter_In. intros [_ H]. now apply Z.eqb_eq in H.
Qed.

Lemma group_group k k' trades :
  group k (group k' trades) = if k =? k' then group k trades else [].
Proof.
  unfold group, sameTime.
  induction trades as [|trade trades IH]; simpl.
  - now destruct (k =? k').
  - destruct (getDateTime trade =? k') eqn:E'; simpl;
      destruct (getDateTime trade =? k) eqn:E; rewrite IH;
      destruct (k =? k') eqn:Ek; auto; exfalso;
      rewrite ?Z.eqb_eq, ?Z.eqb_neq in *; congruence.
Qed.

Lemma group_app k l1 l2 : group k (l1 ++ l2) = group k l1 ++ group k l2.
Proof. apply filter_app. Qed.

Lemma pendingOrder_regroup (d : TradeBars) trades :
  (forall k pending, In (k, pending) d ->
                     pending = map entryOf (group k trades)) ->
  flat_map snd d = map entryOf (regroup d trades).
Proof.
  unfold regroup. induction d as [|[k pending] d IH]; intros H; simpl; auto.
  rewrite map_app, <- IH.
  - f_equal. apply H. now left.
  - intros k' p' Hin. apply H. now right.
Qed.

Lemma timeOrdered_app l1 l2 :
  timeOrdered l1 -> timeOrdered l2 ->
  (forall a b, In a l1 -> In b l2 -> getDateTime a <= getDateTime b) ->
  timeOrdered (l1 ++ l2).
Proof.
  unfold timeOrdered. induction 1 as [|a l1 Hs IH Hall]; intros H2 Hle; auto.
  simpl. constructor.
  - apply IH; auto. intros; apply Hle; simpl; auto.
  - apply Forall_app. split; auto.
    apply Forall_forall. intros b Hb. apply Hle; simpl; auto.
Qed.

Lemma group_timeOrdered k trades : timeOrdered (group k trades).
Proof.
  unfold timeOrdered.
  assert (H : Forall (fun t => getDateTime t = k) (group k trades)).
  { apply Forall_forall. intros t. apply group_time. }
  induction H as [|a l Ha Hl IH]; constructor; auto.
  eapply Forall_impl; [|exact Hl]. simpl. intros; lia.
Qed.

Lemma regroup_time V (d : Dict.t V) trades trade :
  In trade (regroup d trades) ->
  exists kv, In kv d /\ getDateTime trade = fst kv.
Proof.
  unfold regroup. rewrite in_flat_map. intros (kv & Hin & Hg).
  exists kv. split; auto. now apply group_time in Hg.
Qed.

Lemma regroup_timeOrdered V (d : Dict.t V) trades :
  StronglySorted keyLt d -> timeOrdered (regroup d trades).
Proof.
  induction 1 as [|kv d Hs IH Hall].
  - constructor.
  - change (regroup (kv :: d) trades)
      with (group (fst kv) trades ++ regroup d trades).
    apply timeOrdered_app; auto using group_timeOrdered.
    intros a b Ha Hb. apply group_time in Ha.
    apply regroup_time in Hb as (kv' & Hin & Hb).
    rewrite Forall_forall in Hall. specialize (Hall kv' Hin).
    unfold keyLt in Hall. lia.
Qed.

Lemma group_regroup_absent V (d : Dict.t V) trades k :
  ~ In k (Dict.keys d) -> group k (regroup d trades) = [].
Proof.
  unfold Dict.keys.
  induction d as [|kv d IH]; simpl; intros Hnotin; auto.
  change (regroup (kv :: d) trades)
    with (group (fst kv) trades ++ regroup d trades).
  rewrite group_app, group_group, IH by tauto.
  destruct (k =? fst kv) eqn:E; auto.
  apply Z.eqb_eq in E. symmetry in E. tauto.
Qed.

Lemma group_regroup_present V (d : Dict.t V) trades k :
  NoDup (Dict.keys d) -> In k (Dict.keys d) ->
  group k (regroup d trades) = group k trades.
Proof.
  unfold Dict.keys.
  induction d as [|kv d IH]; simpl; intros Hnd Hin; [tauto|].
  change (regroup (kv :: d) trades)
    with (group (fst kv) trades ++ regroup d trades).
  inversion Hnd as [|? ? Hnotin Hnd']; subst.
  rewrite group_app, group_group.
  destruct Hin as [Heq | Hin].
  - subst k. rewrite Z.eqb_refl, group_regroup_absent by auto.
    apply app_nil_r.
  - destruct (k =? fst kv) eqn:E.
    + apply Z.eqb_eq in E. subst k. contradiction.
    + simpl. auto.
Qed.

Lemma trades_of_entries trades :
  flat_map (fun entry : BarDict => map snd entry) (map entryOf trades)
  = trades.
Proof. induction trades; simpl; congruence. Qed.

(** The pending order of a buffer that holds [trades]: the trades, time
    ordered, each timestamp's trades in arrival order. *)
Lemma holds_pendingOrder tb trades :
  holds tb trades ->
  exists emitted,
    pendingOrder tb = map entryOf emitted /\
    timeOrdered emitted /\
    (forall k, group k emitted = group k trades) /\
    Permutation trades emitted.
Proof.
  intros Hh. pose proof Hh as (Hu & Hget & Hperm).
  exists (regroup (Dict.sorted tb) trades).
  assert (Hpend : pendingOrder tb
                  = map entryOf (regroup (Dict.sorted tb) trades)).
  { apply pendingOrder_regroup. intros k pending Hin.
    eapply holds_values; eauto.
    eapply Permutation_in; [apply sorted_perm | exact Hin]. }
  split; [exact Hpend|]. split; [|split].
  - apply regroup_timeOrdered, strict_of_unique.
    + apply sorted_sorted.
    + now apply sorted_uniqueKeys.
  - intros k. destruct (in_dec Z.eq_dec k (Dict.keys (Dict.sorted tb)))
      as [Hin | Hnotin].
    + apply group_regroup_present; auto. now apply sorted_uniqueKeys.
    + rewrite group_regroup_absent by auto.
      apply get_None_keys in Hnotin.
      rewrite sorted_get, Hget in Hnotin by auto.
      now destruct (group k trades).
  - assert (He : Permutation (map entryOf trades)
                   (map entryOf (regroup (Dict.sorted tb) trades))).
    { rewrite <- Hpend, <- Hperm. unfold pendingOrder.
      apply Permutation_flat_map. symmetry. apply sorted_perm. }
    apply (Permutation_flat_map (fun entry : BarDict => map snd entry))
      in He.
    now rewrite !trades_of_entries in He.
Qed.

End BufferFacts.

(** ** The buffer inside the feed *)

Section FeedBuffer.
Implicit Types (w : World) (tb : TradeBars).

Lemma setTradeBars_same w : setTradeBars (tradeBars (feed w)) w = w.
Proof. now destruct w as [[] ? ?]. Qed.

Lemma setTradeBars_twice w tb tb' :
  setTradeBars tb' (setTradeBars tb w) = setTradeBars tb' w.
Proof. reflexivity. Qed.

Lemma tradeBars_setTradeBars w tb : tradeBars (feed (setTradeBars tb w)) = tb.
Proof. reflexivity. Qed.

Lemma onTrades_feedTrades trades :
  forall w tb,
    feedTrades trades (tradeBars (feed w)) = inr tb ->
    onTrades trades w = Ok tt (setTradeBars tb w).
Proof.
  induction trades as [|trade trades IH]; simpl; intros w tb H.
  - injection H as <-. now rewrite setTradeBars_same.
  - unfold bind, onTrade.
    destruct (tradeBars_onTrade trade (tradeBars (feed w))) as [e|tb1];
      [discriminate|].
    now rewrite (IH (setTradeBars tb1 w) tb H).
Qed.

Lemma getNextBarsTimes_drain n :
  forall w rs tb,
    drain n (tradeBars (feed w)) = (inr rs, tb) ->
    getNextBarsTimes n w = Ok rs (setTradeBars tb w).
Proof.
  induction n as [|n IH]; simpl; intros w rs tb H.
  - injection H as <- <-. now rewrite setTradeBars_same.
  - unfold bind, getNextBars.
    destruct (tradeBars_getNextBars (tradeBars (feed w))) as [[e|r] tb1];
      [discriminate|].
    destruct (drain n tb1) as [[e|rs1] tb2] eqn:Ed; [discriminate|].
    injection H as <- <-.
    now rewrite (IH (setTradeBars tb1 w) rs1 tb2 Ed).
Qed.

(** [__onTrade] never raises, whatever the buffer. *)
Lemma tradeBars_onTrade_total trade tb :
  exists tb', tradeBars_onTrade trade tb = inr tb'.
Proof.
  unfold tradeBars_onTrade, Dict.mem.
  destruct (Dict.get (getDateTime trade) tb) eqn:E; simpl.
  - rewrite E. eauto.
  - rewrite get_set_same. eauto.
Qed.

Lemma noEmptyLists_set tb k (pending : list BarDict) :
  noEmptyLists tb -> pending <> [] -> noEmptyLists (Dict.set k pending tb).
Proof.
  unfold noEmptyLists. intros H Hp.
  induction H as [|[k' l'] tb Hl Htb IH]; simpl.
  - repeat constructor. auto.
  - destruct (k =? k'); constructor; auto.
Qed.

Lemma set_set V (d : Dict.t V) k v v' :
  Dict.set k v' (Dict.set k v d) = Dict.set k v' d.
Proof.
  induction d as [|[k0 v0] d IH]; simpl.
  - now rewrite Z.eqb_refl.
  - destruct (k =? k0) eqn:E; simpl; rewrite ?Z.eqb_refl, ?E; congruence.
Qed.

(** [__onTrade] preserves the invariant. *)
Lemma tradeBars_onTrade_invariant trade tb tb' :
  bufferInvariant tb -> tradeBars_onTrade trade tb = inr tb' ->
  bufferInvariant tb'.
Proof.
  intros [Hu Hne]. unfold tradeBars_onTrade, Dict.mem.
  destruct (Dict.get (getDateTime trade) tb) eqn:E; simpl.
  - rewrite E. intros [= <-]. split.
    + now apply uniqueKeys_set.
    + apply noEmptyLists_set; auto. now destruct l.
  - rewrite get_set_same. intros [= <-]. rewrite set_set. split.
    + now apply uniqueKeys_set.
    + apply noEmptyLists_set; auto. discriminate.
Qed.

(** [getNextBars] preserves the invariant, whether it returns or
    [bar.Bars] raises. *)
Lemma tradeBars_getNextBars_invariant tb :
  bufferInvariant tb -> bufferInvariant (snd (tradeBars_getNextBars tb)).
Proof.
  intros [Hu Hne]. destruct tb as [|kv tb0] eqn:Etb.
  - split; constructor.
  - rewrite <- Etb in *.
    assert (Hnil : tb <> []) by (subst; discriminate).
    destruct (getNextBars_step Hu Hne Hnil)
      as (entry & tb' & Hstep & _ & Hu' & Hne' & _).
    rewrite Hstep. split; auto.
Qed.

End FeedBuffer.

(** ** Emission order (C1), the emitted entry (C2), the invariant (C3) *)

(** A trade that goes through an empty buffer comes back as the entry
    [{instrument: trade}]: the trade object itself. *)
Lemma onTrade_getNextBars_single (w : World) (trade : Trade) :
  tradeBars (feed w) = [] ->
  (onTrade trade ;; getNextBars) w = Ok (barsOf trade) w.
Proof.
  intros Hempty. unfold bind, onTrade, getNextBars.
  rewrite Hempty. unfold tradeBars_onTrade. simpl.
  rewrite !Z.eqb_refl. simpl.
  unfold tradeBars_getNextBars. simpl. rewrite !Z.eqb_refl. simpl.
  rewrite !Z.eqb_refl. rewrite setTradeBars_twice, <- Hempty.
  now rewrite setTradeBars_same.
Qed.

(** The projection that [TradeBar] defines: one price for open, high, low
    and close, the amount as volume, the trade's timestamp and instrument,
    frequency [TRADE]. *)
Lemma TradeBar_projection (trade : Trade) (adjusted : bool) :
  let b := TradeBar.init trade in
  TradeBar.getOpen b adjusted = getPrice trade /\
  TradeBar.getHigh b adjusted = getPrice trade /\
  TradeBar.getLow b adjusted = getPrice trade /\
  TradeBar.getClose b adjusted = getPrice trade /\
  TradeBar.getVolume b = getAmount trade /\
  TradeBar.getDateTime b = getDateTime trade /\
  TradeBar.getInstrument b = instrumentOf trade /\
  TradeBar.getFrequency b = FreqTRADE.
Proof. repeat split. Qed.

(** C1. Trades fed into an empty buffer come out of successive
    [getNextBars] calls one per call, all of them, with timestamps that
    never decrease and, for each timestamp, in the order of arrival; the
    buffer is then empty again and [getNextBars] returns [None]. *)
Theorem C1_getNextBars_time_order_fifo (w : World) (trades : list Trade) :
  tradeBars (feed w) = [] ->
  exists emitted,
    (onTrades trades ;; getNextBarsTimes (List.length trades)) w
      = Ok (map barsOf emitted) w /\
    timeOrdered emitted /\
    (forall k, group k emitted = group k trades) /\
    Permutation trades emitted /\
    getNextBars w = Ok None w.
Proof.
  intros Hempty.
  destruct (@feedTrades_holds trades [] [] holds_empty) as (tb & Hfeed & Hh).
  simpl in Hh.
  destruct (holds_pendingOrder Hh) as (emitted & Hpend & Hsorted & Hfifo & Hperm).
  exists emitted. repeat split; auto.
  - unfold bind. rewrite <- Hempty in Hfeed.
    rewrite (onTrades_feedTrades _ _ Hfeed).
    assert (Hlen : List.length (pendingOrder tb) = List.length trades).
    { rewrite Hpend, length_map. symmetry. now apply Permutation_length. }
    assert (Hacc : Forall accepted (pendingOrder tb)).
    { rewrite Hpend. apply accepted_entries. }
    pose proof (@drain_pendingOrder (List.length trades) tb
                  (proj1 Hh) (holds_noEmptyLists Hh) Hacc Hlen) as Hdrain.
    rewrite (getNextBarsTimes_drain _ (setTradeBars tb w) Hdrain).
    rewrite Hpend, map_map, setTradeBars_twice, <- Hempty.
    now rewrite setTradeBars_same.
  - unfold getNextBars. rewrite Hempty. simpl.
    rewrite <- Hempty. now rewrite setTradeBars_same.
Qed.

Lemma C1_witness :
  exists emitted,
    (onTrades [tradeA; tradeEarly; tradeB] ;; getNextBarsTimes 3) (newWorld [])
      = Ok (map barsOf emitted) (newWorld []) /\
    timeOrdered emitted /\
    (forall k, group k emitted = group k [tradeA; tradeEarly; tradeB]) /\
    Permutation [tradeA; tradeEarly; tradeB] emitted /\
    getNextBars (newWorld []) = Ok None (newWorld []).
Proof.
  apply (C1_getNextBars_time_order_fifo (newWorld [])
           [tradeA; tradeEarly; tradeB]).
  reflexivity.
Defined.

(** The scenario in full: the early trade first, then the two trades of
    the same instant in their arrival order. *)
Example getNextBars_scenario :
  (onTrades [tradeA; tradeEarly; tradeB] ;; getNextBarsTimes 4) (newWorld [])
  = Ok [barsOf tradeEarly; barsOf tradeA; barsOf tradeB; None] (newWorld []).
Proof. reflexivity. Qed.

(** C2. What the feed does with a TRADE event: the trade of the spec's
    scenario is stored under its timestamp and its instrument, and
    [getNextBars] hands out that very trade object, not the [TradeBar]
    built from it. *)
Theorem C2_getNextBars_hands_out_the_trade_itself :
  onTrade tradeA (newWorld [])
    = Ok tt (setTradeBars [(36000100, [[(Some "AAPL", tradeA)]])]
                          (newWorld [])) /\
  (onTrade tradeA ;; getNextBars) (newWorld [])
    = Ok (Some (mkBars [(Some "AAPL", tradeA)])) (newWorld []).
Proof. split; reflexivity. Qed.

(** C10. No adjusted close: [setUseAdjustedValue(True)] raises,
    [setUseAdjustedValue(False)] returns and leaves the bar as it was,
    [getAdjClose] is [None], [getUseAdjValue] and the feed's
    [barsHaveAdjClose] are [False]. *)
Theorem C10_adjusted_close_is_never_available (b : TradeBar.t) (w : World) :
  TradeBar.setUseAdjustedValue b true
    = inl (Exception "Adjusted close is not available") /\
  TradeBar.setUseAdjustedValue b false = inr b /\
  TradeBar.getAdjClose b = None /\
  TradeBar.getUseAdjValue b = false /\
  barsHaveAdjClose w = false.
Proof. repeat split. Qed.

(** ** Effects: who takes events from the queue *)

Section Quiet.

Lemma extends_refl w : extends w w.
Proof. exists []. now rewrite app_nil_r. Qed.

Lemma extends_trans w1 w2 w3 : extends w1 w2 -> extends w2 w3 -> extends w1 w3.
Proof.
  intros (s1 & H1 & D1) (s2 & H2 & D2). exists (s1 ++ s2). split.
  - now rewrite H2, H1, app_assoc.
  - unfold dequeued in *. now rewrite filter_app, D1, D2.
Qed.

Lemma extends_same_effects w w' : effects w' = effects w -> extends w w'.
Proof. intros H. exists []. now rewrite app_nil_r. Qed.

Lemma extends_addEffect w e : isDequeued e = false -> extends w (addEffect e w).
Proof.
  intros H. exists [e]. split; auto. unfold dequeued. simpl. now rewrite H.
Qed.

Lemma quiet_ret A (a : A) : quiet (ret a).
Proof. intros w. apply extends_refl. Qed.

Lemma quiet_raise A e : quiet (@raise A e).
Proof. intros w. apply extends_refl. Qed.

Lemma quiet_gets A (f : World -> A) : quiet (gets f).
Proof. intros w. apply extends_refl. Qed.

Lemma quiet_modify f : (forall w, extends w (f w)) -> quiet (modify f).
Proof. intros H w. apply H. Qed.

Lemma quiet_bind A B (m : M A) (k : A -> M B) :
  quiet m -> (forall a, quiet (k a)) -> quiet (bind m k).
Proof.
  intros Hm Hk w. unfold bind. specialize (Hm w).
  destruct (m w) as [a w1|e w1|]; auto.
  specialize (Hk a w1).
  destruct (k a w1); auto; eapply extends_trans; eauto.
Qed.

Lemma quiet_tryExcept A (body : M A) handler :
  quiet body -> (forall e, quiet (handler e)) -> quiet (tryExcept body handler).
Proof.
  intros Hb Hh w. unfold tryExcept. specialize (Hb w).
  destruct (body w) as [a w1|e w1|]; auto.
  specialize (Hh e w1).
  destruct (handler e w1); auto; eapply extends_trans; eauto.
Qed.

Lemma quiet_exceptEmpty r body : quiet body -> quiet (exceptEmpty r body).
Proof.
  intros Hb w. unfold exceptEmpty. specialize (Hb w).
  destruct (body w) as [a w1|e w1|]; auto. now destruct e.
Qed.

Lemma quiet_logInfo msg : quiet (logInfo msg).
Proof. apply quiet_modify. intros w. now apply extends_addEffect. Qed.

Lemma quiet_logError msg : quiet (logError msg).
Proof. apply quiet_modify. intros w. now apply extends_addEffect. Qed.

Lemma quiet_same_effects A (m : M A) :
  (forall w, effects (after (m w) w) = effects w) -> quiet m.
Proof.
  intros H w. specialize (H w).
  destruct (m w); simpl in H; auto using extends_same_effects.
Qed.

Lemma quiet_threadStart : quiet threadStart.
Proof.
  apply quiet_same_effects. intros w. unfold threadStart.
  destruct (thread (feed w)) as [th|]; auto.
  now destruct (th_startRaises th).
Qed.

Lemma quiet_threadIsAlive : quiet threadIsAlive.
Proof.
  apply quiet_same_effects. intros w. unfold threadIsAlive.
  now destruct (thread (feed w)).
Qed.

Lemma quiet_threadStop : quiet threadStop.
Proof.
  intros w. unfold threadStop.
  destruct (thread (feed w)) as [th|]; [|apply extends_refl].
  destruct (th_stopRaises th).
  - now apply extends_addEffect.
  - eapply extends_trans; [now apply (@extends_addEffect w StopSent)|].
    now apply extends_same_effects.
Qed.

Lemma quiet_buildWebSocketClientThread : quiet buildWebSocketClientThread.
Proof.
  apply quiet_same_effects. intros w. unfold buildWebSocketClientThread.
  destruct (factory w) as [|[e|th] rest]; auto.
Qed.

Lemma quiet_waitInitialized t : quiet (waitInitialized t).
Proof.
  apply quiet_same_effects. intros w. unfold waitInitialized.
  destruct (thread (feed w)) as [th|]; auto.
  now destruct (th_ready th).
Qed.

Lemma quiet_onTrade trade : quiet (onTrade trade).
Proof.
  apply quiet_same_effects. intros w. unfold onTrade.
  now destruct (tradeBars_onTrade trade (tradeBars (feed w))).
Qed.

Lemma quiet_emitOrderBookUpdate u : quiet (emitOrderBookUpdate u).
Proof. apply quiet_modify. intros w. now apply extends_addEffect. Qed.

Create HintDb quiet.

Hint Resolve quiet_ret quiet_raise quiet_gets quiet_bind quiet_tryExcept
  quiet_exceptEmpty quiet_logInfo quiet_logError quiet_threadStart
  quiet_threadIsAlive quiet_threadStop quiet_buildWebSocketClientThread
  quiet_waitInitialized quiet_onTrade quiet_emitOrderBookUpdate : quiet.

Lemma quiet_stop : quiet stop.
Proof.
  unfold stop. apply quiet_tryExcept; auto with quiet.
  apply quiet_bind.
  - apply quiet_modify. intros w. now apply extends_same_effects.
  - intros _. apply quiet_bind; auto with quiet.
    intros [th|]; auto with quiet.
    apply quiet_bind; auto with quiet.
    intros [|]; auto with quiet.
Qed.

Lemma quiet_waitLoop fuel : forall initialized, quiet (waitLoop fuel initialized).
Proof.
  induction fuel as [|fuel IH]; intros initialized w; simpl;
    destruct (negb initialized && negb (stopped (feed w)));
    auto using extends_refl.
  apply (@quiet_bind _ _ (waitInitialized (timeout (feed w)))).
  - auto with quiet.
  - intros [| |]; auto. apply quiet_bind; auto using quiet_stop.
Qed.

Lemma quiet_initializeClient fuel : quiet (initializeClient fuel).
Proof.
  unfold initializeClient.
  apply quiet_bind; [auto with quiet | intros _].
  apply quiet_bind; [|intros _].
  { apply quiet_tryExcept; auto with quiet.
    apply quiet_bind; [auto with quiet | intros th].
    apply quiet_bind; [|auto with quiet].
    apply quiet_modify. intros w. now apply extends_same_effects. }
  apply quiet_bind; [auto with quiet | intros _].
  apply quiet_bind; [apply quiet_waitLoop | intros initialized].
  apply quiet_bind; [|auto with quiet].
  destruct initialized; auto with quiet.
Qed.

Lemma quiet_reconnectLoop fuel : quiet (reconnectLoop fuel).
Proof.
  induction fuel as [|fuel IH]; intros w; simpl;
    destruct (negb (stopped (feed w))); auto using extends_refl.
  apply (@quiet_bind _ _ (initializeClient fuel)).
  - apply quiet_initializeClient.
  - intros [|]; auto with quiet.
Qed.

Lemma quiet_onDisconnected fuel : quiet (onDisconnected fuel).
Proof.
  intros w. unfold onDisconnected.
  destruct (enableReconnection (feed w)).
  - apply (@quiet_bind _ _ (logInfo "Reconnecting")); auto with quiet.
    intros _. apply quiet_reconnectLoop.
  - destruct (negb (stopped (feed w))); [|apply extends_refl].
    apply (@quiet_bind _ _ (logInfo "Stopping")); auto with quiet.
    intros _. apply quiet_modify. intros w'. now apply extends_same_effects.
Qed.

End Quiet.

(** ** The dispatch loop (C4, C8, C9) *)

Section Dispatch.
Implicit Types (w : World) (th : Thread) (ev : Event).

Lemma dispatchImpl_get fuel eventFilter w th ev q :
  thread (feed w) = Some th -> th_queue th = ev :: q ->
  dispatchImpl fuel eventFilter w
  = exceptEmpty false
      (if excluded eventFilter (eventTypeOf ev) then ret false
       else routeEvent fuel ev)
      (afterGet th ev q w).
Proof.
  intros Hth Hq. unfold dispatchImpl, exceptEmpty, bind at 1, queueGet.
  now rewrite Hth, Hq.
Qed.

Lemma dispatchImpl_empty fuel eventFilter w th :
  thread (feed w) = Some th -> th_queue th = [] ->
  dispatchImpl fuel eventFilter w = Ok false w.
Proof.
  intros Hth Hq. unfold dispatchImpl, exceptEmpty, bind, queueGet.
  now rewrite Hth, Hq.
Qed.

Lemma dispatchImpl_no_thread fuel eventFilter w :
  thread (feed w) = None ->
  dispatchImpl fuel eventFilter w = Raise AttributeError w.
Proof.
  intros Hth. unfold dispatchImpl, exceptEmpty, bind, queueGet.
  now rewrite Hth.
Qed.

Lemma quiet_routeEvent fuel ev : quiet (routeEvent fuel ev).
Proof.
  destruct ev; simpl.
  - apply quiet_exceptEmpty, quiet_bind;
      auto using quiet_onTrade, quiet_ret.
  - apply quiet_exceptEmpty, quiet_bind;
      auto using quiet_emitOrderBookUpdate, quiet_ret.
  - apply quiet_exceptEmpty, quiet_bind;
      auto using quiet_onDisconnected, quiet_ret.
  - apply quiet_bind; auto using quiet_logError, quiet_ret.
Qed.

(** What [routeEvent] returns, when it returns. *)
Lemma routeEvent_value fuel ev w r w' :
  routeEvent fuel ev w = Ok r w' -> r = knownTag (eventTypeOf ev).
Proof.
  destruct ev; simpl; unfold exceptEmpty, bind.
  - unfold onTrade.
    destruct (tradeBars_onTrade trade (tradeBars (feed w))) as [[]|];
      simpl; intros [= <- _]; reflexivity.
  - simpl. now intros [= <- _].
  - destruct (onDisconnected fuel w) as [[] ?|[] ?|]; simpl;
      intros [= <- _]; reflexivity.
  - simpl. now intros [= <- _].
Qed.

Lemma routeEvent_not_Empty fuel ev w w' :
  routeEvent fuel ev w <> Raise QueueEmpty w'.
Proof.
  destruct ev; simpl; unfold exceptEmpty, bind.
  - destruct (onTrade trade w) as [? ?|[] ?|]; simpl; discriminate.
  - simpl. discriminate.
  - destruct (onDisconnected fuel w) as [? ?|[] ?|]; simpl; discriminate.
  - simpl. discriminate.
Qed.

Lemma effects_afterGet th ev q w :
  effects (afterGet th ev q w) = effects w ++ [Dequeued ev].
Proof. reflexivity. Qed.

End Dispatch.

(** C9. With an empty queue [__dispatchImpl] returns [False] and leaves
    the whole world as it was: the trade buffer, the thread, the stop
    flag, and nothing is logged. *)
Theorem C9_dispatch_on_empty_queue_changes_nothing
    (fuel : nat) (eventFilter : option (list EventType)) (w : World)
    (th : Thread) :
  thread (feed w) = Some th -> th_queue th = [] ->
  dispatchImpl fuel eventFilter w = Ok false w.
Proof. apply dispatchImpl_empty. Qed.

Lemma C9_witness :
  dispatchImpl 1 None (runningWorld []) = Ok false (runningWorld []).
Proof.
  eapply C9_dispatch_on_empty_queue_changes_nothing; reflexivity.
Defined.

(** C8, as the code has it.  A DISCONNECTED event that passes the filter,
    with reconnection disabled and the feed not stopped: the call returns
    [True] without raising, [eof()] is true afterwards, and the trade
    buffer is untouched.  The feed does not look at the stop flag when it
    dispatches: a TRADE event queued behind the disconnection is inserted
    into the buffer by the next call. *)
Theorem C8_disconnect_without_reconnection_stops_the_feed
    (fuel : nat) (eventFilter : option (list EventType)) (w : World)
    (th : Thread) (q : list Event) :
  thread (feed w) = Some th -> th_queue th = EvDisconnected :: q ->
  enableReconnection (feed w) = false -> stopped (feed w) = false ->
  excluded eventFilter DISCONNECTED = false ->
  exists w',
    dispatchImpl fuel eventFilter w = Ok true w' /\
    eof w' = true /\
    tradeBars (feed w') = tradeBars (feed w) /\
    (forall trade q',
        q = EvTrade trade :: q' ->
        exists w'',
          dispatchImpl fuel None w' = Ok true w'' /\
          eof w'' = true /\
          tradeBars_onTrade trade (tradeBars (feed w'))
            = inr (tradeBars (feed w''))).
Proof.
  intros Hth Hq Hrec Hstop Hex.
  rewrite (dispatchImpl_get _ _ _ Hth Hq). simpl eventTypeOf. rewrite Hex.
  unfold routeEvent, exceptEmpty, bind, onDisconnected.
  simpl. rewrite Hrec, Hstop. simpl.
  eexists. split; [reflexivity|]. split; [reflexivity|].
  split; [reflexivity|].
  intros trade q' ->.
  erewrite dispatchImpl_get; [|reflexivity|reflexivity].
  simpl. unfold exceptEmpty, bind, onTrade. simpl.
  destruct (tradeBars_onTrade_total trade (tradeBars (feed w))) as [tb' Htb].
  rewrite Htb. simpl. eexists. split; [reflexivity|]. split; reflexivity.
Qed.

Lemma C8_witness :
  exists w',
    dispatchImpl 1 None lastTradeWorld = Ok true w' /\
    eof w' = true /\
    tradeBars (feed w') = tradeBars (feed lastTradeWorld) /\
    (forall trade q',
        [EvTrade tradeA] = EvTrade trade :: q' ->
        exists w'',
          dispatchImpl 1 None w' = Ok true w'' /\
          eof w'' = true /\
          tradeBars_onTrade trade (tradeBars (feed w'))
            = inr (tradeBars (feed w''))).
Proof.
  eapply (C8_disconnect_without_reconnection_stops_the_feed
            1 None lastTradeWorld); reflexivity.
Defined.

(** C8 as stated fails: after the disconnection has stopped the feed, the
    next call still processes the queued trade, which then sits in the
    buffer and is handed out by [getNextBars]. *)
Lemma C8_counterexample :
  exists w1 w2,
    dispatchImpl 1 None lastTradeWorld = Ok true w1 /\
    eof w1 = true /\
    tradeBars (feed w1) = [] /\
    dispatchImpl 1 None w1 = Ok true w2 /\
    tradeBars (feed w2) = [(36000100, [entryOf tradeA])] /\
    tradeBars (feed w2) <> tradeBars (feed w1) /\
    getNextBars w2 = Ok (barsOf tradeA) (setTradeBars [] w2).
Proof. do 2 eexists. repeat split. discriminate. Qed.

(** ** The connection life cycle (C5, C6, C7) *)

Section LifeCycle.
Implicit Types (w : World) (th : Thread).

(** [stop] always returns, with the stop flag set; the other attributes
    of the feed, but for the thread's own state, are untouched. *)
Lemma stop_returns w :
  exists w',
    stop w = Ok tt w' /\ stopped (feed w') = true /\
    (thread (feed w) = None -> thread (feed w') = None).
Proof.
  unfold stop, tryExcept, bind, modify, gets, threadIsAlive, threadStop,
    logInfo, logError, modify.
  destruct w as [[tb ch a t [th|] r s] es fs]; simpl;
    [|eexists; repeat split; reflexivity].
  destruct (th_alive th); simpl;
    [destruct (th_stopRaises th); simpl|];
    eexists; repeat split; discriminate.
Qed.

Lemma waitInitialized_inv t w tick w' :
  waitInitialized t w = Ok tick w' ->
  stopped (feed w') = stopped (feed w) /\
  (thread (feed w) = None -> thread (feed w') = None).
Proof.
  unfold waitInitialized. destruct (thread (feed w)) as [th|]; [|discriminate].
  destruct (th_ready th); intros [= <- <-]; split; auto; discriminate.
Qed.

Lemma waitInitialized_raise t w e w' :
  waitInitialized t w = Raise e w' -> e = AttributeError.
Proof.
  unfold waitInitialized. destruct (thread (feed w)) as [th|].
  - destruct (th_ready th); discriminate.
  - now intros [= <- _].
Qed.

(** The wait loop returns [True] only with the stop flag down, [False]
    only with the stop flag up, and raises nothing but the
    [AttributeError] of a missing thread. *)
Lemma waitLoop_inv fuel :
  forall w,
    match waitLoop fuel false w with
    | Ok r w' => stopped (feed w') = negb r
    | Raise e _ => e = AttributeError
    | OutOfFuel => True
    end.
Proof.
  induction fuel as [|fuel IH]; intros w; simpl.
  - destruct (stopped (feed w)) eqn:Hs; simpl; auto.
  - destruct (stopped (feed w)) eqn:Hs; simpl; auto.
    unfold bind.
    destruct (waitInitialized (timeout (feed w)) w) as [tick w1|e w1|] eqn:Hw;
      auto.
    2:{ eapply waitInitialized_raise; eauto. }
    apply waitInitialized_inv in Hw as [Hs1 _].
    destruct tick.
    + destruct fuel; simpl; rewrite Hs1, Hs; reflexivity.
    + apply IH.
    + destruct (stop_returns w1) as (w2 & -> & _). apply IH.
Qed.

Lemma initializeClient_inv fuel w :
  match initializeClient fuel w with
  | Ok r w' => stopped (feed w') = negb r
  | Raise e _ => e = AttributeError
  | OutOfFuel => True
  end.
Proof.
  unfold initializeClient.
  unfold bind at 1. simpl. unfold bind at 1.
  match goal with
  | |- context [tryExcept ?b ?h ?x] => destruct (tryExcept b h x) as [[] w1|e w1|] eqn:Htry
  end.
  - unfold bind. simpl.
    pose proof (waitLoop_inv fuel (addEffect (LogInfo "Waiting for websocket initialization to complete") w1)) as Hloop.
    destruct (waitLoop fuel false _) as [[|] w2|e w2|]; simpl in *; auto.
  - exfalso. revert Htry. unfold tryExcept, bind, buildWebSocketClientThread.
    simpl. destruct (factory w) as [|[e0|th] rest]; simpl; try discriminate.
    unfold threadStart. simpl. destruct (th_startRaises th); discriminate.
  - auto.
Qed.

End LifeCycle.

(** C7. [stop] never raises: it always returns, with the stop flag set.
    Calling it again leaves the feed as the first call left it.  The
    thread is asked to terminate exactly if it is alive, and an exception
    of that request is logged as an error, not passed on. *)
Theorem C7_stop_never_raises (w : World) :
  exists w',
    stop w = Ok tt w' /\
    eof w' = true /\
    (exists w'', stop w' = Ok tt w'' /\ feed w'' = feed w') /\
    (exists suffix,
        effects w' = effects w ++ suffix /\
        (In StopSent suffix <->
         exists th, thread (feed w) = Some th /\ th_alive th = true) /\
        (forall th e,
            thread (feed w) = Some th -> th_alive th = true ->
            th_stopRaises th = Some e ->
            In (LogError ("Error shutting down client: " ++ str e)%string)
               suffix)).
Proof.
  unfold stop, tryExcept, bind, modify, gets, threadIsAlive, threadStop,
    logInfo, logError, modify, eof.
  destruct w as [[tb ch a t [th|] r s] es fs]; simpl.
  - destruct th as [sr pr rd [|] q rq]; simpl.
    + destruct pr as [e|]; simpl.
      * eexists. split; [reflexivity|]. split; [reflexivity|]. split.
        { eexists. split; reflexivity. }
        eexists. simpl. rewrite <- !app_assoc. split; [reflexivity|]. split.
        { split; [eauto | simpl; auto]. }
        intros th e' [= <-] _ [= <-]. simpl. auto.
      * eexists. split; [reflexivity|]. split; [reflexivity|]. split.
        { eexists. split; reflexivity. }
        eexists. simpl. rewrite <- !app_assoc. split; [reflexivity|]. split.
        { split; [eauto | simpl; auto]. }
        intros th e' [= <-] _ [=].
    + eexists. split; [reflexivity|]. split; [reflexivity|]. split.
      { eexists. split; reflexivity. }
      exists []. simpl. rewrite app_nil_r. split; [reflexivity|]. split.
      { split; [tauto|]. intros (th & [= <-] & [=]). }
      intros th e' [= <-] [=].
  - eexists. split; [reflexivity|]. split; [reflexivity|]. split.
    { eexists. split; reflexivity. }
    exists []. simpl. rewrite app_nil_r. split; [reflexivity|]. split.
    { split; [tauto|]. intros (th & [=] & _). }
    intros th e' [=].
Qed.

Lemma C7_witness :
  exists w',
    stop stubbornWorld = Ok tt w' /\
    eof w' = true /\
    (exists w'', stop w' = Ok tt w'' /\ feed w'' = feed w') /\
    In StopSent (effects w') /\
    In (LogError "Error shutting down client: socket closed") (effects w').
Proof.
  destruct (C7_stop_never_raises stubbornWorld)
    as (w' & Hstop & Heof & Hidem & suffix & Heff & Hsent & Hlog).
  exists w'. repeat split; auto; rewrite Heff; apply in_or_app; right.
  - apply Hsent. eexists. split; reflexivity.
  - eapply (Hlog _ (Exception "socket closed")); reflexivity.
Defined.

(** C5. A constructor that raises on a feed that has no thread yet: the
    exception is caught and logged, and then the wait loop calls
    [waitInitialized] on the missing thread: [__initializeClient] raises
    [AttributeError], it does not return [False]; [start] passes the
    [AttributeError] on and the stop flag stays down. *)
Theorem C5_constructor_failure_ends_in_AttributeError (fuel : nat) :
  let w := newWorld [inl (Exception "connection refused")] in
  let w' :=
    mkWorld (feed w)
            [LogInfo "Initializing websocket client";
             LogError "Error connecting : connection refused";
             LogInfo "Waiting for websocket initialization to complete"]
            [] in
  initializeClient (S fuel) w = Raise AttributeError w' /\
  start (S fuel) w = Raise AttributeError w' /\
  eof w' = false.
Proof. repeat split. Qed.

(** What the source does when it is [start()] of the new thread that
    raises: the thread object is there, the loop polls it, and it is the
    caller's [stop()] that ends the loop; [__initializeClient] returns
    [False] and [start] raises "Initialization failed" with the stop flag
    up. *)
Example initializeClient_start_raises :
  let w := newWorld [inr deadThread] in
  (exists w', initializeClient 2 w = Ok false w' /\
              In (LogError "Error connecting : cannot start") (effects w') /\
              In (LogError "Initialization failed") (effects w')) /\
  (exists w', start 2 w = Raise (Exception "Initialization failed") w' /\
              eof w' = true) /\
  initializeClient 1 w = OutOfFuel.
Proof.
  repeat split; eexists; (split; [reflexivity|]); simpl; auto 10.
Qed.

(** A thread that never signals keeps the loop polling for ever, unless
    the stop flag goes up. *)
Lemma waitLoop_never_ready (fuel : nat) (w : World) (th : Thread) :
  thread (feed w) = Some th -> th_ready th = [] -> stopped (feed w) = false ->
  waitLoop fuel false w = OutOfFuel.
Proof.
  intros Hth Hready Hs. induction fuel as [|fuel IH]; simpl; rewrite Hs; simpl.
  - reflexivity.
  - unfold bind, waitInitialized. now rewrite Hth, Hready.
Qed.

Example initializeClient_polls_for_ever (fuel : nat) :
  initializeClient fuel
    (newWorld [inr (mkThread (Some (Exception "cannot start")) None []
                             false [] false)])
  = OutOfFuel.
Proof.
  unfold initializeClient, bind. simpl.
  now erewrite waitLoop_never_ready.
Qed.

(** C6, as the code has it.  After a [start] that returns, [eof()] is
    false.  After [stop], [eof()] is true.  A [start] that fails with
    "Initialization failed" has set the stop flag first: [eof()] is true.
    A [start] on a feed that has a thread raises "Already running" and
    changes nothing, the stop flag included. *)
Theorem C6_eof_follows_the_stop_flag (fuel : nat) (w : World) :
  (forall w', start fuel w = Ok tt w' -> eof w' = false) /\
  (exists w', stop w = Ok tt w' /\ eof w' = true) /\
  (forall w', start fuel w = Raise (Exception "Initialization failed") w' ->
              eof w' = true) /\
  (forall w1, thread (feed w) = None ->
              initializeClient fuel w = Ok false w1 ->
              start fuel w
              = Raise (Exception "Initialization failed") (setStopped true w1)) /\
  (forall th, thread (feed w) = Some th ->
              start fuel w = Raise (Exception "Already running") w).
Proof.
  unfold start, bind, gets, eof.
  pose proof (initializeClient_inv fuel w) as Hinit.
  split; [|split; [|split; [|split]]].
  - intros w'. destruct (thread (feed w)); [discriminate|].
    destruct (initializeClient fuel w) as [[|] w1|e w1|]; simpl;
      try discriminate.
    now intros [= <-].
  - destruct (stop_returns w) as (w' & Hstop & Hs & _). eauto.
  - intros w'. destruct (thread (feed w)); [discriminate|].
    destruct (initializeClient fuel w) as [[|] w1|e w1|]; simpl;
      try discriminate.
    + now intros [= <-].
    + subst e. discriminate.
  - intros w1 -> ->. reflexivity.
  - intros th ->. reflexivity.
Qed.

Lemma C6_witness :
  (exists w', start 2 (newWorld [inr (liveThread [])]) = Ok tt w' /\
              eof w' = false) /\
  (exists w', start 2 (newWorld [inr stalledThread])
              = Raise (Exception "Initialization failed") w' /\
              eof w' = true) /\
  (exists w1, initializeClient 2 (newWorld [inr stalledThread]) = Ok false w1 /\
              start 2 (newWorld [inr stalledThread])
              = Raise (Exception "Initialization failed")
                      (setStopped true w1)) /\
  start 2 (runningWorld []) = Raise (Exception "Already running")
                                    (runningWorld []).
Proof.
  pose proof (C6_eof_follows_the_stop_flag 2 (newWorld [inr (liveThread [])]))
    as (Hok & _).
  pose proof (C6_eof_follows_the_stop_flag 2 (newWorld [inr stalledThread]))
    as (_ & _ & Hfail & Hmark & _).
  pose proof (C6_eof_follows_the_stop_flag 2 (runningWorld []))
    as (_ & _ & _ & _ & Hrunning).
  split; [|split; [|split]].
  - eexists. split; [reflexivity|]. apply Hok. reflexivity.
  - eexists. split; [reflexivity|]. apply Hfail. reflexivity.
  - eexists. split; [reflexivity|]. apply Hmark; reflexivity.
  - eapply Hrunning. reflexivity.
Defined.

(** C6 as stated fails: [start] on a running feed fails with "Already
    running", and [eof()] is false afterwards. *)
Lemma C6_counterexample :
  start 2 (runningWorld [])
    = Raise (Exception "Already running") (runningWorld []) /\
  eof (runningWorld []) = false.
Proof. split; reflexivity. Qed.

(** ** More on the trade buffer *)

Section BufferMore.
Implicit Types (tb : TradeBars) (w : World) (trade : Trade).

(** [getNextBars] on a well-formed buffer, from the sorted dict. *)
Lemma tradeBars_getNextBars_shape tb k entry rest more :
  Dict.sorted tb = (k, entry :: rest) :: more ->
  tradeBars_getNextBars tb
  = (barsResult entry,
     match rest with [] => more | _ :: _ => (k, rest) :: more end).
Proof.
  intros Hs. unfold tradeBars_getNextBars.
  assert (Hlen : (0 <? Z.of_nat (List.length tb)) = true).
  { apply Z.ltb_lt. destruct tb; [discriminate | simpl; lia]. }
  rewrite Hlen, Hs. simpl. rewrite Z.eqb_refl.
  destruct rest; simpl; now rewrite ?Z.eqb_refl.
Qed.

(** The head of the sorted dict is the binding of the smallest key. *)
Lemma sorted_head_earliest tb k pending :
  uniqueKeys tb ->
  Dict.get k tb = Some pending ->
  (forall k', In k' (Dict.keys tb) -> k <= k') ->
  exists more,
    Dict.sorted tb = (k, pending) :: more /\
    ~ In k (Dict.keys more) /\
    (forall k', k' <> k -> Dict.get k' more = Dict.get k' tb).
Proof.
  intros Hu Hget Hmin.
  pose proof (sorted_perm tb) as Hperm.
  pose proof (sorted_sorted tb) as Hsorted.
  pose proof Hu as Hu'. apply sorted_uniqueKeys in Hu'.
  assert (Hsget : forall k', Dict.get k' (Dict.sorted tb) = Dict.get k' tb).
  { intros k'. now apply sorted_get. }
  destruct (Dict.sorted tb) as [|[k0 l0] more].
  { apply Permutation_nil in Hperm. subst. discriminate. }
  inversion Hsorted as [|? ? _ Hall]; subst.
  inversion Hu' as [|? ? Hnotin _]; subst.
  assert (Hk : k0 = k).
  { assert (Hin0 : In k0 (Dict.keys tb)).
    { eapply Permutation_in; [apply keys_perm, Hperm|]. now left. }
    apply Hmin in Hin0.
    assert (Hin : In (k, pending) ((k0, l0) :: more)).
    { eapply Permutation_in; [symmetry; exact Hperm|].
      now apply get_Some_In. }
    destruct Hin as [[= -> _] | Hin]; auto.
    rewrite Forall_forall in Hall. specialize (Hall _ Hin).
    unfold keyLe in Hall. simpl in Hall. lia. }
  subst k0. pose proof (Hsget k) as Hk. simpl in Hk.
  rewrite Z.eqb_refl, Hget in Hk. injection Hk as ->.
  exists more. repeat split; auto.
  intros k' Hne. rewrite <- Hsget. simpl.
  destruct (k' =? k) eqn:E; auto. apply Z.eqb_eq in E. contradiction.
Qed.

Lemma tradeBars_getNextBars_earliest tb k entry rest :
  uniqueKeys tb ->
  Dict.get k tb = Some (entry :: rest) ->
  (forall k', In k' (Dict.keys tb) -> k <= k') ->
  exists tb',
    tradeBars_getNextBars tb = (barsResult entry, tb') /\
    Dict.get k tb' = match rest with [] => None | _ :: _ => Some rest end /\
    (forall k', k' <> k -> Dict.get k' tb' = Dict.get k' tb).
Proof.
  intros Hu Hget Hmin.
  destruct (sorted_head_earliest Hu Hget Hmin) as (more & Hs & Hnotin & Hother).
  rewrite (tradeBars_getNextBars_shape _ Hs).
  eexists. split; [reflexivity|]. destruct rest as [|entry' rest]; split.
  - now apply get_None_keys.
  - exact Hother.
  - simpl. now rewrite Z.eqb_refl.
  - intros k' Hne. simpl.
    destruct (k' =? k) eqn:E; auto. apply Z.eqb_eq in E. contradiction.
Qed.

(** What [__onTrade] does to the bindings of the buffer. *)
Lemma tradeBars_onTrade_get trade tb :
  exists tb',
    tradeBars_onTrade trade tb = inr tb' /\
    Dict.get (getDateTime trade) tb'
    = Some (match Dict.get (getDateTime trade) tb with
            | Some pending => pending
            | None => []
            end ++ [entryOf trade]) /\
    (forall k, k <> getDateTime trade -> Dict.get k tb' = Dict.get k tb) /\
    Permutation (flat_map snd tb') (entryOf trade :: flat_map snd tb).
Proof.
  unfold tradeBars_onTrade, Dict.mem.
  destruct (Dict.get (getDateTime trade) tb) as [pending|] eqn:E; simpl.
  - rewrite E. eexists. split; [reflexivity|]. split; [|split].
    + apply get_set_same.
    + intros k Hne. now apply get_set_other.
    + rewrite (@entries_set_present tb _ _ [entryOf trade] E).
      apply Permutation_sym, Permutation_cons_append.
  - rewrite get_set_same. eexists. split; [reflexivity|]. split; [|split].
    + apply get_set_same.
    + intros k Hne. now rewrite !get_set_other.
    + rewrite set_set, entries_set_absent by auto.
      apply Permutation_sym, Permutation_cons_append.
Qed.

End BufferMore.

Lemma pendingOrder_perm (tb : TradeBars) :
  Permutation (pendingOrder tb) (flat_map snd tb).
Proof. unfold pendingOrder. apply Permutation_flat_map, sorted_perm. Qed.

(** C3. The invariant: the buffer is a dict none of whose lists is empty.
    The buffer of a new feed satisfies it.  [__onTrade] returns and
    preserves it.  [getNextBars] preserves it whether it returns or
    [bar.Bars] raises: the key is deleted as soon as its list is empty.
    When every buffered entry is one that [bar.Bars] accepts, as the
    entries of [__onTrade] are, [getNextBars] returns, [__onTrade] and
    [getNextBars] keep the entries so, and as many [getNextBars] calls as
    there are buffered entries leave the buffer without any key. *)
Theorem C3_buffer_never_holds_an_empty_list (w : World) (trade : Trade) :
  bufferInvariant (tradeBars (feed w)) ->
  (forall api_ instruments timeout_,
      bufferInvariant (tradeBars (LiveTradeFeed api_ instruments timeout_)) /\
      entriesAccepted (tradeBars (LiveTradeFeed api_ instruments timeout_))) /\
  (exists w', onTrade trade w = Ok tt w' /\
              bufferInvariant (tradeBars (feed w')) /\
              (entriesAccepted (tradeBars (feed w)) ->
               entriesAccepted (tradeBars (feed w')))) /\
  bufferInvariant (tradeBars (feed (after (getNextBars w) w))) /\
  (entriesAccepted (tradeBars (feed w)) ->
   (exists r w', getNextBars w = Ok r w' /\
                 bufferInvariant (tradeBars (feed w')) /\
                 entriesAccepted (tradeBars (feed w'))) /\
   (exists rs w',
       getNextBarsTimes (List.length (flat_map snd (tradeBars (feed w)))) w
         = Ok rs w' /\
       tradeBars (feed w') = [])).
Proof.
  intros Hinv. split; [|split; [|split]].
  - intros. repeat split; constructor.
  - destruct (tradeBars_onTrade_get trade (tradeBars (feed w)))
      as (tb' & Htb & _ & _ & Hperm).
    exists (setTradeBars tb' w). unfold onTrade. rewrite Htb.
    split; auto. split.
    + eapply tradeBars_onTrade_invariant; eauto.
    + intros Hacc. unfold entriesAccepted in *. simpl.
      eapply Permutation_Forall; [symmetry; exact Hperm|].
      constructor; auto. apply accepted_entryOf.
  - pose proof (tradeBars_getNextBars_invariant Hinv) as Hpop.
    unfold getNextBars.
    destruct (tradeBars_getNextBars (tradeBars (feed w))) as [[e|r] tb1];
      exact Hpop.
  - intros Hacc. pose proof Hinv as [Hu Hne].
    assert (Hpacc : Forall accepted (pendingOrder (tradeBars (feed w)))).
    { eapply Permutation_Forall; [symmetry; apply pendingOrder_perm|].
      exact Hacc. }
    split.
    + destruct (tradeBars (feed w)) as [|kv tb0] eqn:Etb.
      * exists None, (setTradeBars [] w). unfold getNextBars. rewrite Etb.
        simpl. repeat split; constructor.
      * rewrite <- Etb in *.
        assert (Hnil : tradeBars (feed w) <> []) by (rewrite Etb; discriminate).
        destruct (getNextBars_step Hu Hne Hnil)
          as (entry & tb' & Hstep & Hpend & Hu' & Hne' & Hsorted).
        rewrite Hpend in Hpacc. inversion Hpacc as [|? ? Hentry Hrest]; subst.
        exists (Some (mkBars entry)), (setTradeBars tb' w).
        unfold getNextBars. rewrite Hstep, (barsResult_accepted Hentry).
        repeat split; auto.
        unfold entriesAccepted. simpl.
        unfold pendingOrder in Hrest.
        now rewrite (sorted_fixpoint Hsorted) in Hrest.
    + assert (Hlen : List.length (pendingOrder (tradeBars (feed w)))
                     = List.length (flat_map snd (tradeBars (feed w)))).
      { apply Permutation_length, pendingOrder_perm. }
      pose proof (drain_pendingOrder Hu Hne Hpacc Hlen) as Hdrain.
      eexists. exists (setTradeBars [] w).
      now rewrite (getNextBarsTimes_drain _ _ Hdrain).
Qed.

Lemma C3_witness :
  let w := bufferedWorld in
  (forall api_ instruments timeout_,
      bufferInvariant (tradeBars (LiveTradeFeed api_ instruments timeout_)) /\
      entriesAccepted (tradeBars (LiveTradeFeed api_ instruments timeout_))) /\
  (exists w', onTrade tradeB w = Ok tt w' /\
              bufferInvariant (tradeBars (feed w')) /\
              entriesAccepted (tradeBars (feed w'))) /\
  bufferInvariant (tradeBars (feed (after (getNextBars w) w))) /\
  (exists r w', getNextBars w = Ok r w' /\
                bufferInvariant (tradeBars (feed w')) /\
                entriesAccepted (tradeBars (feed w'))) /\
  (exists rs w',
      getNextBarsTimes (List.length (flat_map snd (tradeBars (feed w)))) w
        = Ok rs w' /\
      tradeBars (feed w') = []).
Proof.
  intros w.
  assert (Hinv : bufferInvariant (tradeBars (feed w))).
  { split.
    - repeat constructor; simpl; intuition discriminate.
    - repeat constructor; simpl; discriminate. }
  assert (Hacc : entriesAccepted (tradeBars (feed w))).
  { repeat constructor. }
  destruct (@C3_buffer_never_holds_an_empty_list w tradeB Hinv)
    as (Hinit & (w' & Hrun & Hinv' & Hacc') & Hpop & Hrest).
  destruct (Hrest Hacc) as (Hnext & Hdrain).
  split; [exact Hinit|]. split; [|split; [exact Hpop|split; assumption]].
  exists w'. auto.
Defined.

(** What [getNextBars] of the feed does with the result on the buffer. *)
Lemma getNextBars_handOut (w : World) (entry : BarDict) (tb' : TradeBars) :
  tradeBars_getNextBars (tradeBars (feed w)) = (barsResult entry, tb') ->
  getNextBars w = handOut entry (setTradeBars tb' w).
Proof.
  intros Hrun. unfold getNextBars, handOut. rewrite Hrun. unfold barsResult.
  now destruct (Bars_init entry).
Qed.

(** X1. On a buffer with distinct keys, [getNextBars] pops the head of the
    list bound to the smallest timestamp and nothing else changes: that
    timestamp keeps the rest of its list, or loses its key when the list
    is used up, and every other timestamp keeps its list.  The call
    returns the bars that [bar.Bars] builds from the popped entry, or
    raises what [bar.Bars] raises (an empty dict, timestamps that
    differ), with the entry popped all the same. *)
Theorem X1_getNextBars_takes_head_of_earliest
    (w : World) (k : Z) (entry : BarDict) (rest : list BarDict) :
  uniqueKeys (tradeBars (feed w)) ->
  Dict.get k (tradeBars (feed w)) = Some (entry :: rest) ->
  (forall k', In k' (Dict.keys (tradeBars (feed w))) -> k <= k') ->
  exists tb',
    getNextBars w = handOut entry (setTradeBars tb' w) /\
    Dict.get k tb' = match rest with [] => None | _ :: _ => Some rest end /\
    (forall k', k' <> k -> Dict.get k' tb' = Dict.get k' (tradeBars (feed w))).
Proof.
  intros Hu Hget Hmin.
  destruct (tradeBars_getNextBars_earliest Hu Hget Hmin)
    as (tb' & Hrun & Hk & Hother).
  exists tb'. rewrite (@getNextBars_handOut w entry tb' Hrun). repeat split; auto.
Qed.

Lemma X1_witness :
  exists tb',
    getNextBars bufferedWorld
      = Ok (Some (mkBars (entryOf tradeEarly))) (setTradeBars tb' bufferedWorld) /\
    Dict.get 35999000 tb' = None /\
    (forall k', k' <> 35999000 ->
                Dict.get k' tb' = Dict.get k' (tradeBars (feed bufferedWorld))).
Proof.
  apply (@X1_getNextBars_takes_head_of_earliest
           bufferedWorld 35999000 (entryOf tradeEarly) []).
  - repeat constructor; simpl; intuition discriminate.
  - reflexivity.
  - simpl. intros k' [<- | [<- | []]]; lia.
Defined.

(** X2. [__onTrade] never raises.  It appends the entry of the trade to
    the list of the trade's timestamp (a fresh list when the timestamp was
    not a key), leaves every other timestamp alone, changes nothing in the
    feed but the buffer, and the buffer then holds the old entries and the
    new one. *)
Theorem X2_onTrade_appends_under_its_timestamp (w : World) (trade : Trade) :
  exists tb',
    onTrade trade w = Ok tt (setTradeBars tb' w) /\
    Dict.get (getDateTime trade) tb'
    = Some (match Dict.get (getDateTime trade) (tradeBars (feed w)) with
            | Some pending => pending
            | None => []
            end ++ [entryOf trade]) /\
    (forall k, k <> getDateTime trade ->
               Dict.get k tb' = Dict.get k (tradeBars (feed w))) /\
    Permutation (flat_map snd tb')
                (entryOf trade :: flat_map snd (tradeBars (feed w))).
Proof.
  destruct (tradeBars_onTrade_get trade (tradeBars (feed w)))
    as (tb' & Hrun & Hget & Hother & Hperm).
  exists tb'. unfold onTrade. rewrite Hrun. auto.
Qed.

(** X3. [getNextBars] returns [None] on the empty buffer and leaves the
    feed as it is; on a non-empty buffer that satisfies the invariant it
    pops one entry, and the buffer afterwards holds exactly the other
    entries: nothing is lost and nothing is handed out twice.  It returns
    the bars of the popped entry when [bar.Bars] accepts it, and
    otherwise raises what [bar.Bars] raises, the entry being gone from
    the buffer all the same. *)
Theorem X3_getNextBars_removes_exactly_one_entry (w : World) :
  bufferInvariant (tradeBars (feed w)) ->
  (tradeBars (feed w) = [] -> getNextBars w = Ok None w) /\
  (tradeBars (feed w) <> [] ->
   exists entry tb',
     getNextBars w = handOut entry (setTradeBars tb' w) /\
     Permutation (flat_map snd (tradeBars (feed w)))
                 (entry :: flat_map snd tb')).
Proof.
  intros [Hu Hne]. split.
  - intros Hempty. unfold getNextBars. rewrite Hempty. simpl.
    rewrite <- Hempty. now rewrite setTradeBars_same.
  - intros Hnil.
    destruct (getNextBars_step Hu Hne Hnil)
      as (entry & tb' & Hrun & Hpend & _ & _ & Hsorted).
    exists entry, tb'. rewrite (@getNextBars_handOut w entry tb' Hrun).
    split; [reflexivity|].
    unfold pendingOrder in Hpend.
    rewrite (sorted_fixpoint Hsorted) in Hpend. rewrite <- Hpend.
    apply Permutation_flat_map. symmetry. apply sorted_perm.
Qed.

Lemma X3_witness :
  (tradeBars (feed (newWorld [])) = [] ->
   getNextBars (newWorld []) = Ok None (newWorld [])) /\
  (exists entry tb',
      getNextBars bufferedWorld = handOut entry (setTradeBars tb' bufferedWorld) /\
      Permutation (flat_map snd (tradeBars (feed bufferedWorld)))
                  (entry :: flat_map snd tb')).
Proof.
  split.
  - apply (@X3_getNextBars_removes_exactly_one_entry (newWorld [])).
    split; constructor.
  - apply (@X3_getNextBars_removes_exactly_one_entry bufferedWorld).
    + split.
      * repeat constructor; simpl; intuition discriminate.
      * repeat constructor; simpl; discriminate.
    + discriminate.
Defined.

(** X4. A trade stamped earlier than everything in the buffer is what the
    very next [getNextBars] returns, whatever was handed out before, and
    the two calls together leave every timestamp with the list it had. *)
Theorem X4_earlier_trade_is_handed_out_next (w : World) (trade : Trade) :
  bufferInvariant (tradeBars (feed w)) ->
  (forall k', In k' (Dict.keys (tradeBars (feed w))) -> getDateTime trade < k') ->
  exists tb',
    (onTrade trade ;; getNextBars) w = Ok (barsOf trade) (setTradeBars tb' w) /\
    (forall k, Dict.get k tb' = Dict.get k (tradeBars (feed w))).
Proof.
  intros Hinv Hmin.
  destruct (tradeBars_onTrade_get trade (tradeBars (feed w)))
    as (tb1 & Hrun & Hget & Hother & _).
  assert (Habsent : Dict.get (getDateTime trade) (tradeBars (feed w)) = None).
  { apply get_None_keys. intros Hin. apply Hmin in Hin. lia. }
  rewrite Habsent in Hget. simpl in Hget.
  pose proof (tradeBars_onTrade_invariant _ Hinv Hrun) as [Hu1 _].
  assert (Hmin1 : forall k', In k' (Dict.keys tb1) -> getDateTime trade <= k').
  { intros k' Hin. destruct (Z.eq_dec k' (getDateTime trade)) as [-> | Hne];
      [lia|].
    apply Z.lt_le_incl, Hmin.
    destruct (in_dec Z.eq_dec k' (Dict.keys (tradeBars (feed w))))
      as [Hin' | Hnotin]; auto.
    apply get_None_keys in Hnotin. rewrite <- (Hother _ Hne) in Hnotin.
    apply get_None_keys in Hnotin. contradiction. }
  destruct (tradeBars_getNextBars_earliest Hu1 Hget Hmin1)
    as (tb' & Hpop & Hk & Hother').
  exists tb'. split.
  - unfold bind, onTrade, getNextBars. rewrite Hrun. simpl.
    now rewrite Hpop.
  - intros k. destruct (Z.eq_dec k (getDateTime trade)) as [-> | Hne].
    + now rewrite Hk, Habsent.
    + now rewrite Hother', Hother.
Qed.

Lemma X4_witness :
  exists tb',
    (onTrade tradeEarly ;; getNextBars) oneTradeWorld
      = Ok (barsOf tradeEarly) (setTradeBars tb' oneTradeWorld) /\
    (forall k, Dict.get k tb' = Dict.get k (tradeBars (feed oneTradeWorld))).
Proof.
  apply (@X4_earlier_trade_is_handed_out_next oneTradeWorld tradeEarly).
  - split.
    + repeat constructor; simpl; intuition discriminate.
    + repeat constructor; simpl; discriminate.
  - simpl. intros k' [<- | []]. lia.
Defined.

(** ** What the methods leave alone *)

Section Respects.
Variable R : World -> World -> Prop.
Hypothesis R_refl : forall w, R w w.
Hypothesis R_trans : forall w1 w2 w3, R w1 w2 -> R w2 w3 -> R w1 w3.
Hypothesis R_addEffect : forall e w, R w (addEffect e w).
Hypothesis R_setThread : forall th w, R w (setThread (Some th) w).
Hypothesis R_setStopped : forall w, R w (setStopped true w).
Hypothesis R_setFactory : forall fs w, R w (setFactory fs w).
Hypothesis R_setTradeBars : forall tb w, R w (setTradeBars tb w).

Lemma respects_ret A (a : A) : respects R (ret a).
Proof. intros w. apply R_refl. Qed.

Lemma respects_raise A e : respects R (@raise A e).
Proof. intros w. apply R_refl. Qed.

Lemma respects_gets A (f : World -> A) : respects R (gets f).
Proof. intros w. apply R_refl. Qed.

Lemma respects_bind A B (m : M A) (k : A -> M B) :
  respects R m -> (forall a, respects R (k a)) -> respects R (bind m k).
Proof.
  intros Hm Hk w. unfold bind. specialize (Hm w).
  destruct (m w) as [a w1|e w1|]; auto.
  specialize (Hk a w1). destruct (k a w1); auto; eapply R_trans; eauto.
Qed.

Lemma respects_tryExcept A (body : M A) handler :
  respects R body -> (forall e, respects R (handler e)) ->
  respects R (tryExcept body handler).
Proof.
  intros Hb Hh w. unfold tryExcept. specialize (Hb w).
  destruct (body w) as [a w1|e w1|]; auto.
  specialize (Hh e w1). destruct (handler e w1); auto; eapply R_trans; eauto.
Qed.

Lemma respects_exceptEmpty r body :
  respects R body -> respects R (exceptEmpty r body).
Proof.
  intros Hb w. unfold exceptEmpty. specialize (Hb w).
  destruct (body w) as [a w1|e w1|]; auto. now destruct e.
Qed.

Lemma respects_logInfo msg : respects R (logInfo msg).
Proof. intros w. apply R_addEffect. Qed.

Lemma respects_logError msg : respects R (logError msg).
Proof. intros w. apply R_addEffect. Qed.

Lemma respects_threadStart : respects R threadStart.
Proof.
  intros w. unfold threadStart. destruct (thread (feed w)) as [th|]; auto.
  destruct (th_startRaises th); auto.
Qed.

Lemma respects_threadIsAlive : respects R threadIsAlive.
Proof.
  intros w. unfold threadIsAlive. destruct (thread (feed w)); auto.
Qed.

Lemma respects_threadStop : respects R threadStop.
Proof.
  intros w. unfold threadStop. destruct (thread (feed w)) as [th|]; auto.
  destruct (th_stopRaises th); auto.
  eapply R_trans; [apply (R_addEffect StopSent)|]. apply R_setThread.
Qed.

Lemma respects_waitInitialized t : respects R (waitInitialized t).
Proof.
  intros w. unfold waitInitialized. destruct (thread (feed w)) as [th|]; auto.
  destruct (th_ready th); auto.
Qed.

Lemma respects_stop : respects R stop.
Proof.
  unfold stop. apply respects_tryExcept; [|intros e; apply respects_logError].
  apply respects_bind; [intros w; apply R_setStopped | intros _].
  apply respects_bind; [apply respects_gets | intros [th|]].
  - apply respects_bind; [apply respects_threadIsAlive | intros [|]].
    + apply respects_bind; [apply respects_logInfo | intros _].
      apply respects_threadStop.
    + apply respects_ret.
  - apply respects_ret.
Qed.

Lemma respects_waitLoop fuel :
  forall initialized, respects R (waitLoop fuel initialized).
Proof.
  induction fuel as [|fuel IH]; intros initialized w; simpl;
    destruct (negb initialized && negb (stopped (feed w))); auto.
  apply (@respects_bind _ _ (waitInitialized (timeout (feed w)))).
  - apply respects_waitInitialized.
  - intros [| |]; auto.
    apply respects_bind; [apply respects_stop | auto].
Qed.

Lemma respects_buildWebSocketClientThread :
  respects R buildWebSocketClientThread.
Proof.
  intros w. unfold buildWebSocketClientThread.
  destruct (factory w) as [|[e|th] rest]; auto.
Qed.

Lemma respects_initializeClient fuel : respects R (initializeClient fuel).
Proof.
  unfold initializeClient.
  apply respects_bind; [apply respects_logInfo | intros _].
  apply respects_bind; [|intros _].
  { apply respects_tryExcept; [|intros e; apply respects_logError].
    apply respects_bind; [apply respects_buildWebSocketClientThread|].
    intros th.
    apply respects_bind; [intros w; apply R_setThread | intros _].
    apply respects_threadStart. }
  apply respects_bind; [apply respects_logInfo | intros _].
  apply respects_bind; [apply respects_waitLoop | intros initialized].
  apply respects_bind; [|intros _; apply respects_ret].
  destruct initialized; [apply respects_logInfo | apply respects_logError].
Qed.

Lemma respects_reconnectLoop fuel : respects R (reconnectLoop fuel).
Proof.
  induction fuel as [|fuel IH]; intros w; simpl;
    destruct (negb (stopped (feed w))); auto.
  apply (@respects_bind _ _ (initializeClient fuel)).
  - apply respects_initializeClient.
  - intros [|]; [apply respects_ret | apply IH].
Qed.

Lemma respects_onDisconnected fuel : respects R (onDisconnected fuel).
Proof.
  intros w. unfold onDisconnected. destruct (enableReconnection (feed w)).
  - apply (@respects_bind _ _ (logInfo "Reconnecting"));
      [apply respects_logInfo | intros _; apply respects_reconnectLoop].
  - destruct (negb (stopped (feed w))); auto.
    apply (@respects_bind _ _ (logInfo "Stopping"));
      [apply respects_logInfo | intros _ w'; apply R_setStopped].
Qed.

Lemma respects_start fuel : respects R (start fuel).
Proof.
  unfold start. apply respects_bind; [apply respects_gets | intros [th|]].
  - apply respects_raise.
  - apply respects_bind; [apply respects_initializeClient | intros [|]]; simpl.
    + apply respects_ret.
    + apply respects_bind; [intros w; apply R_setStopped | intros _].
      apply respects_raise.
Qed.

Lemma respects_onTrade trade : respects R (onTrade trade).
Proof.
  intros w. unfold onTrade.
  destruct (tradeBars_onTrade trade (tradeBars (feed w))); auto.
Qed.

Lemma respects_getNextBars : respects R getNextBars.
Proof.
  intros w. unfold getNextBars.
  destruct (tradeBars_getNextBars (tradeBars (feed w))) as [[e|r] tb]; auto.
Qed.

Lemma respects_queueGet b t : respects R (queueGet b t).
Proof.
  intros w. unfold queueGet. destruct (thread (feed w)) as [th|]; auto.
  destruct (th_queue th); auto.
  eapply R_trans; [apply R_setThread | apply R_addEffect].
Qed.

Lemma respects_routeEvent fuel ev : respects R (routeEvent fuel ev).
Proof.
  destruct ev; simpl.
  - apply respects_exceptEmpty, respects_bind;
      [apply respects_onTrade | intros _; apply respects_ret].
  - apply respects_exceptEmpty, respects_bind;
      [intros w; apply R_addEffect | intros _; apply respects_ret].
  - apply respects_exceptEmpty, respects_bind;
      [apply respects_onDisconnected | intros _; apply respects_ret].
  - apply respects_bind; [apply respects_logError | intros _; apply respects_ret].
Qed.

Lemma respects_dispatchImpl fuel eventFilter :
  respects R (dispatchImpl fuel eventFilter).
Proof.
  unfold dispatchImpl. apply respects_exceptEmpty.
  apply respects_bind; [apply respects_queueGet | intros ev].
  destruct (excluded eventFilter (eventTypeOf ev));
    [apply respects_ret | apply respects_routeEvent].
Qed.

End Respects.

Ltac solve_relation :=
  unfold staysStopped, sameBuffer, sameFactory, keepsThread;
  intros; simpl in *; auto; try congruence.

(** X5. No method lowers the stop flag: when [eof()] is true before a call
    of [start], [stop], [__dispatchImpl], [getNextBars], [__onTrade],
    [enableReconection], [__onDisconnected] or [__initializeClient], it is
    true after it, whether the call returns or raises. *)
Theorem X5_stop_flag_is_never_lowered
    (fuel : nat) (eventFilter : option (list EventType)) (trade : Trade)
    (enable : bool) :
  respects staysStopped (start fuel) /\
  respects staysStopped stop /\
  respects staysStopped (dispatchImpl fuel eventFilter) /\
  respects staysStopped getNextBars /\
  respects staysStopped (onTrade trade) /\
  respects staysStopped (enableReconection enable) /\
  respects staysStopped (onDisconnected fuel) /\
  respects staysStopped (initializeClient fuel).
Proof.
  repeat split.
  - apply respects_start; solve_relation.
  - apply respects_stop; solve_relation.
  - apply respects_dispatchImpl; solve_relation.
  - apply respects_getNextBars; solve_relation.
  - apply respects_onTrade; solve_relation.
  - intros w. solve_relation.
  - apply respects_onDisconnected; solve_relation.
  - apply respects_initializeClient; solve_relation.
Qed.

(** X6. The connection methods never touch the trade buffer: after
    [start], [stop], [enableReconection], [__onDisconnected] or
    [__initializeClient] the buffer is what it was, whether the call
    returns or raises. *)
Theorem X6_connection_methods_leave_the_buffer_alone
    (fuel : nat) (enable : bool) :
  respects sameBuffer (start fuel) /\
  respects sameBuffer stop /\
  respects sameBuffer (enableReconection enable) /\
  respects sameBuffer (onDisconnected fuel) /\
  respects sameBuffer (initializeClient fuel).
Proof.
  repeat split.
  - apply respects_start; solve_relation.
  - apply respects_stop; solve_relation.
  - apply respects_onDisconnected; solve_relation.
  - apply respects_initializeClient; solve_relation.
Qed.

(** X7. [__dispatchImpl] changes the trade buffer only for a TRADE event
    that passes the filter: when the event at the head of the queue is
    anything else, or there is none, or no thread, the buffer is what it
    was after the call. *)
Theorem X7_only_a_trade_event_changes_the_buffer
    (fuel : nat) (eventFilter : option (list EventType)) (w : World) :
  (forall th trade q,
      thread (feed w) = Some th -> th_queue th = EvTrade trade :: q ->
      excluded eventFilter TRADE = true) ->
  sameBuffer w (after (dispatchImpl fuel eventFilter w) w).
Proof.
  intros Hnotrade.
  destruct (thread (feed w)) as [th|] eqn:Hth.
  2:{ rewrite dispatchImpl_no_thread by auto. reflexivity. }
  destruct (th_queue th) as [|ev q] eqn:Hq.
  { rewrite (dispatchImpl_empty _ _ _ Hth Hq). reflexivity. }
  rewrite (dispatchImpl_get _ _ _ Hth Hq). unfold exceptEmpty.
  destruct (excluded eventFilter (eventTypeOf ev)) eqn:Hex; [reflexivity|].
  destruct ev as [trade|update| |tag data]; simpl in Hex.
  - rewrite (Hnotrade th trade q eq_refl Hq) in Hex. discriminate.
  - reflexivity.
  - assert (Hr : respects sameBuffer (onDisconnected fuel)).
    { apply respects_onDisconnected; solve_relation. }
    specialize (Hr (afterGet th EvDisconnected q w)).
    simpl. unfold exceptEmpty, bind.
    destruct (onDisconnected fuel (afterGet th EvDisconnected q w))
      as [[] w1|[] w1|]; unfold sameBuffer in *; simpl in *; congruence.
  - reflexivity.
Qed.

Lemma X7_witness :
  sameBuffer busyWorld (after (dispatchImpl 1 None busyWorld) busyWorld) /\
  sameBuffer lastTradeWorld
             (after (dispatchImpl 1 None lastTradeWorld) lastTradeWorld).
Proof.
  split.
  - apply (@X7_only_a_trade_event_changes_the_buffer 1 None busyWorld).
    intros th trade q [= <-]. discriminate.
  - apply (@X7_only_a_trade_event_changes_the_buffer 1 None lastTradeWorld).
    intros th trade q [= <-]. discriminate.
Defined.

(** ** Initialization and reconnection, more closely *)

Section Reconnect.
Implicit Types (w : World) (th : Thread).

Lemma waitLoop_stopped fuel initialized w :
  stopped (feed w) = true -> waitLoop fuel initialized w = Ok initialized w.
Proof.
  intros Hs. destruct fuel; simpl; rewrite Hs, andb_false_r; reflexivity.
Qed.

Lemma reconnectLoop_stopped fuel w :
  stopped (feed w) = true -> reconnectLoop fuel w = Ok tt w.
Proof. intros Hs. destruct fuel; simpl; rewrite Hs; reflexivity. Qed.

(** With a thread at hand the wait loop never raises. *)
Lemma waitLoop_no_raise fuel :
  forall initialized w e w',
    thread (feed w) <> None -> waitLoop fuel initialized w <> Raise e w'.
Proof.
  induction fuel as [|fuel IH]; intros initialized w e w' Hth; simpl;
    destruct (negb initialized && negb (stopped (feed w))); try discriminate.
  unfold bind, waitInitialized.
  destruct (thread (feed w)) as [th|] eqn:E; [|congruence].
  assert (Hstop : respects keepsThread stop).
  { apply respects_stop; solve_relation. }
  destruct (th_ready th) as [|[| |] rest].
  - apply IH. rewrite E. discriminate.
  - apply IH. simpl. discriminate.
  - apply IH. simpl. discriminate.
  - specialize (Hstop (setThread (Some (th_setReady rest th)) w)).
    destruct (stop (setThread (Some (th_setReady rest th)) w))
      as [[] w1|e1 w1|] eqn:Es.
    + apply IH. apply Hstop. simpl. discriminate.
    + destruct (stop_returns (setThread (Some (th_setReady rest th)) w))
        as (w2 & Hw2 & _). congruence.
    + discriminate.
Qed.

(** The world in which [__initializeClient] enters its wait loop. *)
Lemma initializeClient_entry fuel w :
  exists w1,
    initializeClient fuel w
    = (initialized <- waitLoop fuel false ;;
       (if initialized : bool then logInfo "Initialization completed"
        else logError "Initialization failed") ;;
       ret initialized) w1 /\
    factory w1 = tl (factory w) /\
    stopped (feed w1) = stopped (feed w) /\
    tradeBars (feed w1) = tradeBars (feed w) /\
    thread (feed w1)
    = match factory w with
      | inr th :: _ =>
          Some (match th_startRaises th with
                | Some _ => th
                | None => th_setAlive true th
                end)
      | _ => thread (feed w)
      end.
Proof.
  unfold initializeClient.
  unfold bind at 1, logInfo at 1, modify at 1.
  unfold bind at 1, tryExcept, bind at 1, buildWebSocketClientThread.
  simpl. destruct (factory w) as [|[e|th] rest] eqn:Hf; simpl.
  - unfold bind at 1. simpl. eexists. split; [reflexivity|]. simpl. auto.
  - unfold bind at 1. simpl. eexists. split; [reflexivity|]. simpl. auto.
  - unfold bind at 1, threadStart. simpl.
    destruct (th_startRaises th); simpl; unfold bind at 1; simpl;
      eexists; (split; [reflexivity|]); simpl; auto.
Qed.

Lemma initializeClient_factory fuel w :
  match initializeClient fuel w with
  | Ok _ w' => factory w' = tl (factory w)
  | Raise _ w' => factory w' = tl (factory w)
  | OutOfFuel => True
  end.
Proof.
  destruct (initializeClient_entry fuel w) as (w1 & -> & Hf & _).
  assert (Hr : respects sameFactory
                 (initialized <- waitLoop fuel false ;;
                  (if initialized : bool
                   then logInfo "Initialization completed"
                   else logError "Initialization failed") ;;
                  ret initialized)).
  { apply respects_bind;
      [solve_relation | apply respects_waitLoop; solve_relation
       | intros initialized].
    apply respects_bind;
      [solve_relation | destruct initialized; intros w0; solve_relation
       | intros _ w0; solve_relation]. }
  specialize (Hr w1). unfold sameFactory in Hr.
  match goal with
  | |- match ?X with _ => _ end => destruct X
  end; auto; congruence.
Qed.

Lemma reconnectLoop_atMostOneBuild fuel w :
  match reconnectLoop fuel w with
  | Ok _ w' => atMostOneBuild w w'
  | Raise _ w' => atMostOneBuild w w'
  | OutOfFuel => True
  end.
Proof.
  unfold atMostOneBuild.
  destruct fuel as [|fuel]; simpl;
    destruct (negb (stopped (feed w))); auto.
  unfold bind.
  pose proof (initializeClient_factory fuel w) as Hf.
  pose proof (initializeClient_inv fuel w) as Hi.
  destruct (initializeClient fuel w) as [[|] w1|e w1|]; simpl in *; auto.
  rewrite reconnectLoop_stopped by auto. auto.
Qed.

End Reconnect.

(** X8. One DISCONNECTED event makes the feed build at most one new
    thread: [__onDisconnected] calls [buildWebSocketClientThread] at most
    once, because [__initializeClient] returns [False] only with the stop
    flag up, which ends the retry loop; and it calls it not at all when
    reconnection is disabled or the feed is already stopped. *)
Theorem X8_reconnection_builds_at_most_one_thread (fuel : nat) (w : World) :
  atMostOneBuild w (after (onDisconnected fuel w) w) /\
  (enableReconnection (feed w) = false \/ stopped (feed w) = true ->
   sameFactory w (after (onDisconnected fuel w) w)).
Proof.
  unfold onDisconnected, sameFactory. split.
  - destruct (enableReconnection (feed w)).
    + unfold bind at 1, logInfo, modify.
      pose proof (reconnectLoop_atMostOneBuild fuel
                    (addEffect (LogInfo "Reconnecting") w)) as H.
      destruct (reconnectLoop fuel (addEffect (LogInfo "Reconnecting") w));
        simpl; auto. now left.
    + destruct (negb (stopped (feed w))); simpl; now left.
  - intros [Hoff | Hstopped].
    + rewrite Hoff. now destruct (negb (stopped (feed w))).
    + rewrite Hstopped. destruct (enableReconnection (feed w)); auto.
      unfold bind, logInfo, modify.
      now rewrite reconnectLoop_stopped.
Qed.

Lemma X8_witness :
  sameFactory lastTradeWorld (after (onDisconnected 1 lastTradeWorld) lastTradeWorld) /\
  sameFactory stoppedEarlyWorld
              (after (onDisconnected 1 stoppedEarlyWorld) stoppedEarlyWorld).
Proof.
  split.
  - apply (X8_reconnection_builds_at_most_one_thread 1 lastTradeWorld).
    left. reflexivity.
  - apply (X8_reconnection_builds_at_most_one_thread 1 stoppedEarlyWorld).
    right. reflexivity.
Defined.

(** The wait loop with a thread that is ready at poll [n + 1]. *)
Lemma waitLoop_ready (rest : list WaitTick) (n : nat) :
  forall fuel w th,
    (n < fuel)%nat ->
    thread (feed w) = Some th ->
    th_ready th = repeat NotYet n ++ Ready :: rest ->
    stopped (feed w) = false ->
    waitLoop fuel false w = Ok true (setThread (Some (th_setReady rest th)) w).
Proof.
  induction n as [|n IH]; intros fuel w th Hfuel Hth Hready Hs;
    (destruct fuel as [|fuel]; [lia|]); simpl; rewrite Hs; simpl;
    unfold bind, waitInitialized; rewrite Hth, Hready; simpl.
  - destruct fuel; reflexivity.
  - rewrite (IH fuel
               (setThread
                  (Some (th_setReady (repeat NotYet n ++ Ready :: rest) th)) w)
               (th_setReady (repeat NotYet n ++ Ready :: rest) th));
      [reflexivity | lia | reflexivity | reflexivity | exact Hs].
Qed.

(** X9. [start] on a new feed returns as soon as the thread reports ready:
    with a constructor that delivers a thread whose [start()] does not
    raise and which is ready at poll [n + 1], and with the stop flag down,
    [start] returns after those polls; the feed then holds that thread,
    alive, [eof()] is false, and the trade buffer is untouched. *)
Theorem X9_start_returns_once_the_thread_is_ready
    (fuel n : nat) (w : World) (th : Thread) (fs : list (Exn + Thread))
    (rest : list WaitTick) :
  thread (feed w) = None ->
  stopped (feed w) = false ->
  factory w = inr th :: fs ->
  th_startRaises th = None ->
  th_ready th = repeat NotYet n ++ Ready :: rest ->
  (n < fuel)%nat ->
  exists w',
    start fuel w = Ok tt w' /\
    thread (feed w') = Some (th_setReady rest (th_setAlive true th)) /\
    eof w' = false /\
    factory w' = fs /\
    tradeBars (feed w') = tradeBars (feed w).
Proof.
  intros Hth Hs Hf Hstart Hready Hfuel.
  unfold start, bind at 1, gets. rewrite Hth. unfold bind at 1.
  destruct (initializeClient_entry fuel w)
    as (w1 & -> & Hf1 & Hs1 & Htb1 & Hth1).
  rewrite Hf, Hstart in Hth1. rewrite Hf in Hf1. simpl in Hf1.
  unfold bind at 1.
  rewrite (@waitLoop_ready rest n fuel w1 (th_setAlive true th));
    auto; [|congruence].
  simpl. eexists. split; [reflexivity|]. unfold eof. simpl.
  repeat split; auto. congruence.
Qed.

Lemma X9_witness :
  exists w',
    start 4 (newWorld [inr (slowThread 3 [])]) = Ok tt w' /\
    thread (feed w')
    = Some (th_setReady [] (th_setAlive true (slowThread 3 []))) /\
    eof w' = false /\
    factory w' = [] /\
    tradeBars (feed w') = tradeBars (feed (newWorld [inr (slowThread 3 [])])).
Proof.
  apply (@X9_start_returns_once_the_thread_is_ready
           4 3 (newWorld [inr (slowThread 3 [])]) (slowThread 3 []) [] []);
    try reflexivity.
  lia.
Defined.

(** X10. The three ways [__initializeClient] can end.  It returns [True]
    only with the stop flag down and [False] only with the stop flag up.
    It raises only [AttributeError], and only when the feed had no thread
    and the constructor did not deliver one. *)
Theorem X10_how_initializeClient_ends (fuel : nat) (w : World) :
  (forall w', initializeClient fuel w = Ok true w' ->
              stopped (feed w') = false) /\
  (forall w', initializeClient fuel w = Ok false w' ->
              stopped (feed w') = true) /\
  (forall e w', initializeClient fuel w = Raise e w' ->
                e = AttributeError /\
                thread (feed w) = None /\
                (forall th fs, factory w <> inr th :: fs)).
Proof.
  pose proof (initializeClient_inv fuel w) as Hinv.
  split; [|split].
  - intros w' H. now rewrite H in Hinv.
  - intros w' H. now rewrite H in Hinv.
  - intros e w' H. rewrite H in Hinv. split; auto.
    destruct (initializeClient_entry fuel w) as (w1 & Hrun & _ & _ & _ & Hth).
    rewrite Hrun in H. unfold bind at 1 in H.
    destruct (waitLoop fuel false w1) as [r w2|e0 w2|] eqn:Hloop.
    + destruct r; discriminate.
    + destruct (thread (feed w1)) eqn:Hth1.
      * exfalso. eapply waitLoop_no_raise; [|exact Hloop]. congruence.
      * destruct (factory w) as [|[e1|th1] fs1]; try discriminate;
          split; auto; discriminate.
    + discriminate.
Qed.

Lemma X10_witness :
  (exists w', initializeClient 2 (newWorld [inr (liveThread [])]) = Ok true w' /\
              stopped (feed w') = false) /\
  (exists w', initializeClient 2 (newWorld [inr stalledThread]) = Ok false w' /\
              stopped (feed w') = true) /\
  (exists w', initializeClient 1 (newWorld [inl (Exception "connection refused")])
              = Raise AttributeError w' /\
              thread (feed (newWorld [inl (Exception "connection refused")]))
              = None).
Proof.
  pose proof (X10_how_initializeClient_ends 2 (newWorld [inr (liveThread [])]))
    as (Htrue & _).
  pose proof (X10_how_initializeClient_ends 2 (newWorld [inr stalledThread]))
    as (_ & Hfalse & _).
  pose proof (X10_how_initializeClient_ends
                1 (newWorld [inl (Exception "connection refused")]))
    as (_ & _ & Hraise).
  split; [|split].
  - eexists. split; [reflexivity|]. apply Htrue. reflexivity.
  - eexists. split; [reflexivity|]. apply Hfalse. reflexivity.
  - eexists. split; [reflexivity|].
    eapply (Hraise AttributeError). reflexivity.
Defined.

(** X11. A constructor that raises while the feed still has its old
    thread: the exception is logged, no thread replaces the old one, and
    the wait loop polls the old thread; when that one answers ready,
    [__initializeClient] logs "Initialization completed" and returns
    [True] with the old thread still in place. *)
Theorem X11_failed_constructor_leaves_the_old_thread_polled
    (fuel : nat) (w : World) (old : Thread) (e : Exn)
    (fs : list (Exn + Thread)) (rest : list WaitTick) :
  thread (feed w) = Some old ->
  factory w = inl e :: fs ->
  stopped (feed w) = false ->
  th_ready old = Ready :: rest ->
  exists w',
    initializeClient (S fuel) w = Ok true w' /\
    thread (feed w') = Some (th_setReady rest old) /\
    In (LogError ("Error connecting : " ++ str e)%string) (effects w') /\
    In (LogInfo "Initialization completed") (effects w').
Proof.
  intros Hth Hf Hs Hready.
  unfold initializeClient, bind, logInfo, logError, modify, tryExcept,
    buildWebSocketClientThread.
  simpl. rewrite Hf. simpl. rewrite Hs. simpl.
  unfold bind, waitInitialized. simpl. rewrite Hth, Hready. simpl.
  destruct fuel; simpl; (eexists; split; [reflexivity|]); simpl;
    (split; [reflexivity|]); split; apply in_or_app; simpl; auto;
    left; apply in_or_app; simpl; auto;
    left; apply in_or_app; simpl; auto.
Qed.

Lemma X11_witness :
  exists w',
    initializeClient 1 brokenFactoryWorld = Ok true w' /\
    thread (feed w')
    = Some (th_setReady [] (th_setAlive true (th_setReady [Ready] twiceReadyThread))) /\
    In (LogError "Error connecting : connection refused") (effects w') /\
    In (LogInfo "Initialization completed") (effects w').
Proof.
  apply (@X11_failed_constructor_leaves_the_old_thread_polled
           0 brokenFactoryWorld
           (th_setAlive true (th_setReady [Ready] twiceReadyThread))
           (Exception "connection refused") [] []);
    reflexivity.
Defined.

(** X12. [start] on a feed whose stop flag is already up never succeeds.
    With a thread in place it raises "Already running" and changes
    nothing.  Without one it raises "Initialization failed" without
    polling, but only after the constructor was called: a thread it
    delivered has been started and stays in the feed. *)
Theorem X12_start_on_a_stopped_feed_always_raises (fuel : nat) (w : World) :
  stopped (feed w) = true ->
  (thread (feed w) <> None ->
   start fuel w = Raise (Exception "Already running") w) /\
  (thread (feed w) = None ->
   exists w',
     start fuel w = Raise (Exception "Initialization failed") w' /\
     eof w' = true /\
     factory w' = tl (factory w) /\
     (forall th fs,
         factory w = inr th :: fs -> th_startRaises th = None ->
         thread (feed w') = Some (th_setAlive true th))).
Proof.
  intros Hs. split.
  - unfold start, bind at 1, gets.
    destruct (thread (feed w)); [reflexivity | congruence].
  - intros Hnone. unfold start, bind at 1, gets. rewrite Hnone.
    unfold bind at 1.
    destruct (initializeClient_entry fuel w)
      as (w1 & -> & Hf1 & Hs1 & _ & Hth1).
    unfold bind at 1. rewrite waitLoop_stopped by congruence.
    simpl. eexists. split; [reflexivity|]. unfold eof. simpl.
    repeat split; auto.
    intros th fs Hf Hstart. now rewrite Hth1, Hf, Hstart.
Qed.

Lemma X12_witness :
  start 2 (after (stop (runningWorld [])) (runningWorld []))
    = Raise (Exception "Already running")
            (after (stop (runningWorld [])) (runningWorld [])) /\
  (exists w',
      start 2 stoppedEarlyWorld = Raise (Exception "Initialization failed") w' /\
      eof w' = true /\
      factory w' = tl (factory stoppedEarlyWorld) /\
      thread (feed w') = Some (th_setAlive true (liveThread []))).
Proof.
  split.
  - apply (@X12_start_on_a_stopped_feed_always_raises
             2 (after (stop (runningWorld [])) (runningWorld [])));
      [reflexivity | discriminate].
  - destruct (@X12_start_on_a_stopped_feed_always_raises 2 stoppedEarlyWorld
                eq_refl) as [_ H].
    destruct (H eq_refl) as (w' & Hrun & Heof & Hfac & Hth).
    exists w'. repeat split; auto.
    apply (Hth (liveThread []) []); reflexivity.
Defined.

(** ** Dispatching and draining together *)

Lemma dispatchImpl_trade (fuel : nat) (w : World) (th : Thread)
    (trade : Trade) (q : list Event) (tb : TradeBars) :
  thread (feed w) = Some th -> th_queue th = EvTrade trade :: q ->
  tradeBars_onTrade trade (tradeBars (feed w)) = inr tb ->
  dispatchImpl fuel None w
  = Ok true (setTradeBars tb (afterGet th (EvTrade trade) q w)).
Proof.
  intros Hth Hq Htb. rewrite (dispatchImpl_get _ _ _ Hth Hq). simpl.
  unfold exceptEmpty, bind, onTrade. simpl. now rewrite Htb.
Qed.

Lemma th_setQueue_same (th : Thread) : th_setQueue (th_queue th) th = th.
Proof. now destruct th. Qed.

Lemma dispatchImplTimes_trades (fuel : nat) (q : list Event)
    (trades : list Trade) :
  forall w th tb,
    thread (feed w) = Some th ->
    th_queue th = map EvTrade trades ++ q ->
    feedTrades trades (tradeBars (feed w)) = inr tb ->
    exists w1,
      dispatchImplTimes fuel None (List.length trades) w
        = Ok (repeat true (List.length trades)) w1 /\
      tradeBars (feed w1) = tb /\
      thread (feed w1) = Some (th_setQueue q th) /\
      stopped (feed w1) = stopped (feed w).
Proof.
  induction trades as [|trade trades IH]; intros w th tb Hth Hq Hfeed; simpl in *.
  - injection Hfeed as <-. exists w. repeat split; auto.
    now rewrite <- Hq, th_setQueue_same.
  - destruct (tradeBars_onTrade trade (tradeBars (feed w))) as [e|tb1] eqn:Htb;
      [discriminate|].
    unfold bind at 1. rewrite (dispatchImpl_trade fuel _ Hth Hq Htb).
    destruct (IH (setTradeBars tb1
                    (afterGet th (EvTrade trade) (map EvTrade trades ++ q) w))
                 (th_setQueue (map EvTrade trades ++ q) th) tb
                 eq_refl eq_refl Hfeed)
      as (w1 & Hrun & Hbuf & Hth1 & Hs1).
    exists w1. unfold bind. rewrite Hrun. repeat split; auto.
Qed.

(** X13. Dispatching and draining compose.  On a feed with an empty
    buffer whose queue starts with [n] TRADE events, [n] calls of
    [__dispatchImpl] all return [True] and leave the rest of the queue in
    place; [n] calls of [getNextBars] then hand out those trades, all of
    them, with timestamps that never decrease and equal timestamps in
    queue order, and leave the buffer empty. *)
Theorem X13_dispatched_trades_are_drained_in_time_order
    (fuel : nat) (w : World) (th : Thread) (trades : list Trade)
    (q : list Event) :
  thread (feed w) = Some th ->
  th_queue th = map EvTrade trades ++ q ->
  tradeBars (feed w) = [] ->
  exists emitted w1,
    dispatchImplTimes fuel None (List.length trades) w
      = Ok (repeat true (List.length trades)) w1 /\
    thread (feed w1) = Some (th_setQueue q th) /\
    getNextBarsTimes (List.length trades) w1
      = Ok (map barsOf emitted) (setTradeBars [] w1) /\
    timeOrdered emitted /\
    (forall k, group k emitted = group k trades) /\
    Permutation trades emitted.
Proof.
  intros Hth Hq Hempty.
  destruct (@feedTrades_holds trades [] [] holds_empty) as (tb & Hfeed & Hh).
  simpl in Hh. rewrite <- Hempty in Hfeed.
  destruct (dispatchImplTimes_trades fuel q trades _ Hth Hq Hfeed)
    as (w1 & Hrun & Hbuf & Hth1 & _).
  destruct (holds_pendingOrder Hh)
    as (emitted & Hpend & Hsorted & Hfifo & Hperm).
  exists emitted, w1. repeat split; auto.
  assert (Hlen : List.length (pendingOrder tb) = List.length trades).
  { rewrite Hpend, length_map. symmetry. now apply Permutation_length. }
  assert (Hacc : Forall accepted (pendingOrder tb)).
  { rewrite Hpend. apply accepted_entries. }
  pose proof (@drain_pendingOrder (List.length trades) tb
                (proj1 Hh) (holds_noEmptyLists Hh) Hacc Hlen) as Hdrain.
  rewrite <- Hbuf in Hdrain.
  rewrite (getNextBarsTimes_drain _ _ Hdrain).
  now rewrite Hbuf, Hpend, map_map.
Qed.

Lemma X13_witness :
  exists emitted w1,
    dispatchImplTimes 1 None 3 (runningWorld tradesQueue)
      = Ok [true; true; true] w1 /\
    thread (feed w1)
    = Some (th_setQueue [EvOrderBookUpdate "book"] (runningThread tradesQueue)) /\
    getNextBarsTimes 3 w1 = Ok (map barsOf emitted) (setTradeBars [] w1) /\
    timeOrdered emitted /\
    (forall k, group k emitted = group k [tradeA; tradeEarly; tradeB]) /\
    Permutation [tradeA; tradeEarly; tradeB] emitted.
Proof.
  apply (@X13_dispatched_trades_are_drained_in_time_order
           1 (runningWorld tradesQueue) (runningThread tradesQueue)
           [tradeA; tradeEarly; tradeB] [EvOrderBookUpdate "book"]);
    reflexivity.
Defined.

(** X15. Reconnection.  A DISCONNECTED event that passes the filter, with
    reconnection enabled, the stop flag down, and a constructor that
    delivers a thread whose [start()] does not raise and which is ready at
    poll [n + 1]: the call returns [True]; the feed then holds the new
    thread, alive, in place of the old one, whose remaining events are
    gone with it; [eof()] is false and the trade buffer is untouched. *)
Theorem X15_disconnection_is_repaired_by_a_new_thread
    (fuel n : nat) (eventFilter : option (list EventType)) (w : World)
    (old th : Thread) (q : list Event) (fs : list (Exn + Thread))
    (rest : list WaitTick) :
  thread (feed w) = Some old ->
  th_queue old = EvDisconnected :: q ->
  excluded eventFilter DISCONNECTED = false ->
  enableReconnection (feed w) = true ->
  stopped (feed w) = false ->
  factory w = inr th :: fs ->
  th_startRaises th = None ->
  th_ready th = repeat NotYet n ++ Ready :: rest ->
  (S n < fuel)%nat ->
  exists w',
    dispatchImpl fuel eventFilter w = Ok true w' /\
    thread (feed w') = Some (th_setReady rest (th_setAlive true th)) /\
    eof w' = false /\
    tradeBars (feed w') = tradeBars (feed w).
Proof.
  intros Hth Hq Hex Hrec Hs Hf Hstart Hready Hfuel.
  rewrite (dispatchImpl_get _ _ _ Hth Hq). simpl eventTypeOf. rewrite Hex.
  unfold routeEvent, exceptEmpty, bind at 1, onDisconnected.
  simpl. rewrite Hrec. unfold bind at 1, logInfo, modify.
  destruct fuel as [|fuel]; [lia|]. simpl. rewrite Hs. simpl.
  unfold bind at 1.
  set (w0 := addEffect (LogInfo "Reconnecting") (afterGet old EvDisconnected q w)).
  destruct (initializeClient_entry fuel w0)
    as (w1 & -> & Hf1 & Hs1 & Htb1 & Hth1).
  subst w0. simpl in Hf1, Hs1, Htb1, Hth1.
  rewrite Hf, Hstart in Hth1.
  unfold bind at 1.
  rewrite (@waitLoop_ready rest n fuel w1 (th_setAlive true th));
    auto; [|lia|congruence].
  simpl. eexists. split; [reflexivity|]. unfold eof. simpl.
  repeat split; auto. congruence.
Qed.

Lemma X15_witness :
  exists w',
    dispatchImpl 4 None reconnectingWorld = Ok true w' /\
    thread (feed w')
    = Some (th_setReady [] (th_setAlive true (slowThread 2 [EvTrade tradeB]))) /\
    eof w' = false /\
    tradeBars (feed w') = tradeBars (feed reconnectingWorld).
Proof.
  apply (@X15_disconnection_is_repaired_by_a_new_thread
           4 2 None reconnectingWorld
           (runningThread [EvDisconnected; EvTrade tradeA])
           (slowThread 2 [EvTrade tradeB]) [EvTrade tradeA] [] []);
    try reflexivity.
  lia.
Defined.

(** ** What a dispatched event does (C4) *)

Lemma reconnectLoop_raise (fuel : nat) :
  forall w e w', reconnectLoop fuel w = Raise e w' -> e = AttributeError.
Proof.
  induction fuel as [|fuel IH]; intros w e w'; simpl;
    destruct (negb (stopped (feed w))); try discriminate.
  unfold bind. pose proof (initializeClient_inv fuel w) as Hinv.
  destruct (initializeClient fuel w) as [[|] w1|e1 w1|]; simpl;
    try discriminate.
  - apply IH.
  - now intros [= <- _].
Qed.

Lemma onDisconnected_raise (fuel : nat) (w : World) (e : Exn) (w' : World) :
  onDisconnected fuel w = Raise e w' -> e = AttributeError.
Proof.
  unfold onDisconnected. destruct (enableReconnection (feed w)).
  - unfold bind, logInfo, modify. apply reconnectLoop_raise.
  - destruct (negb (stopped (feed w))); discriminate.
Qed.

(** [routeEvent] returns [True] exactly when it has processed the event. *)
Lemma routeEvent_processes (fuel : nat) (ev : Event) (w1 w' : World)
    (r : bool) :
  routeEvent fuel ev w1 = Ok r w' -> (r = true <-> processes fuel ev w1 w').
Proof.
  destruct ev as [trade|update| |tag data]; simpl; unfold exceptEmpty, bind.
  - unfold onTrade.
    destruct (tradeBars_onTrade_total trade (tradeBars (feed w1))) as [tb Htb].
    rewrite Htb. simpl. intros [= <- <-]. split; eauto.
  - simpl. intros [= <- <-]. tauto.
  - destruct (onDisconnected fuel w1) as [[] w0|e w0|] eqn:Hd; simpl.
    + intros [= <- <-]. tauto.
    + apply onDisconnected_raise in Hd. subst e. discriminate.
    + discriminate.
  - simpl. intros [= <- <-]. split; [discriminate | tauto].
Qed.

(** C4. One call of [__dispatchImpl] takes at most one event from the
    queue.  When it returns, it returns [True] exactly if it took an event
    that the filter lets through and processed it: a TRADE was inserted
    into the buffer by [__onTrade], an ORDER_BOOK_UPDATE was emitted with
    its payload, a DISCONNECTED went through [__onDisconnected].  An event
    excluded by the filter is taken (it is gone from the queue), nothing
    else happens, and the call returns [False]; an event with another tag
    is taken, logged as an error, and the call returns [False].  A TRADE
    or ORDER_BOOK_UPDATE event that passes the filter is always processed
    and the call returns [True]; for a DISCONNECTED event the call returns
    [True] exactly when [__onDisconnected] returns, in the world that it
    leaves. *)
Theorem C4_dispatch_takes_one_event_and_reports_it
    (fuel : nat) (eventFilter : option (list EventType)) (w : World) :
  (exists suffix,
      effects (after (dispatchImpl fuel eventFilter w) w)
        = effects w ++ suffix /\
      (List.length (dequeued suffix) <= 1)%nat) /\
  (forall r w',
      dispatchImpl fuel eventFilter w = Ok r w' ->
      (r = true <->
       exists th ev q,
         thread (feed w) = Some th /\ th_queue th = ev :: q /\
         excluded eventFilter (eventTypeOf ev) = false /\
         processes fuel ev (afterGet th ev q w) w')) /\
  (forall th ev q,
      thread (feed w) = Some th -> th_queue th = ev :: q ->
      excluded eventFilter (eventTypeOf ev) = true ->
      dispatchImpl fuel eventFilter w = Ok false (afterGet th ev q w)) /\
  (forall th tag data q,
      thread (feed w) = Some th -> th_queue th = EvOther tag data :: q ->
      excluded eventFilter (OTHER tag) = false ->
      dispatchImpl fuel eventFilter w
      = Ok false
          (addEffect
             (LogError ("Invalid event received to dispatch: "
                        ++ showZ tag ++ " - " ++ data)%string)
             (afterGet th (EvOther tag data) q w))) /\
  (forall th ev q,
      thread (feed w) = Some th -> th_queue th = ev :: q ->
      excluded eventFilter (eventTypeOf ev) = false ->
      eventTypeOf ev = TRADE \/ eventTypeOf ev = ORDER_BOOK_UPDATE ->
      exists w',
        dispatchImpl fuel eventFilter w = Ok true w' /\
        processes fuel ev (afterGet th ev q w) w') /\
  (forall th q w',
      thread (feed w) = Some th -> th_queue th = EvDisconnected :: q ->
      excluded eventFilter DISCONNECTED = false ->
      (dispatchImpl fuel eventFilter w = Ok true w' <->
       onDisconnected fuel (afterGet th EvDisconnected q w) = Ok tt w')).
Proof.
  split; [|split; [|split; [|split; [|split]]]].
  - destruct (thread (feed w)) as [th|] eqn:Hth.
    2:{ rewrite dispatchImpl_no_thread by auto. exists []. simpl.
        rewrite app_nil_r. auto. }
    destruct (th_queue th) as [|ev q] eqn:Hq.
    { rewrite (dispatchImpl_empty _ _ _ Hth Hq). exists []. simpl.
      rewrite app_nil_r. auto. }
    rewrite (dispatchImpl_get _ _ _ Hth Hq).
    assert (Hquiet : quiet (exceptEmpty false
                       (if excluded eventFilter (eventTypeOf ev)
                        then ret false else routeEvent fuel ev))).
    { apply quiet_exceptEmpty.
      destruct (excluded eventFilter (eventTypeOf ev));
        auto using quiet_ret, quiet_routeEvent. }
    specialize (Hquiet (afterGet th ev q w)).
    destruct (exceptEmpty false _ (afterGet th ev q w)) as [r w'|e w'|];
      simpl.
    3:{ exists []. rewrite app_nil_r. auto. }
    all: destruct Hquiet as (s & Hs & Hd);
      exists ([Dequeued ev] ++ s);
      rewrite Hs, effects_afterGet, <- app_assoc; split; auto;
      unfold dequeued in *; rewrite filter_app, Hd; simpl; auto.
  - intros r w' Hrun.
    destruct (thread (feed w)) as [th|] eqn:Hth.
    2:{ rewrite dispatchImpl_no_thread in Hrun by auto. discriminate. }
    destruct (th_queue th) as [|ev q] eqn:Hq.
    { rewrite (dispatchImpl_empty _ _ _ Hth Hq) in Hrun.
      injection Hrun as <- <-. split; [discriminate|].
      intros (th' & ev & q & [= <-] & Hq' & _). congruence. }
    rewrite (dispatchImpl_get _ _ _ Hth Hq) in Hrun.
    unfold exceptEmpty in Hrun.
    destruct (excluded eventFilter (eventTypeOf ev)) eqn:Hex.
    { simpl in Hrun. injection Hrun as <- <-. split; [discriminate|].
      intros (th' & ev' & q' & [= <-] & Hq' & Hex' & _).
      rewrite Hq in Hq'. injection Hq' as <- <-. congruence. }
    destruct (routeEvent fuel ev (afterGet th ev q w)) as [r0 w0|e w0|] eqn:Hr.
    + injection Hrun as <- <-. apply routeEvent_processes in Hr. split.
      * intros Hk. exists th, ev, q. repeat split; auto. now apply Hr.
      * intros (th' & ev' & q' & [= <-] & Hq' & _ & Hk).
        rewrite Hq in Hq'. injection Hq' as <- <-. now apply Hr.
    + destruct e; try discriminate.
      now apply routeEvent_not_Empty in Hr.
    + discriminate.
  - intros th ev q Hth Hq Hex.
    rewrite (dispatchImpl_get _ _ _ Hth Hq), Hex. reflexivity.
  - intros th tag data q Hth Hq Hex.
    rewrite (dispatchImpl_get _ _ _ Hth Hq). simpl eventTypeOf.
    rewrite Hex. reflexivity.
  - intros th ev q Hth Hq Hex Hty.
    rewrite (dispatchImpl_get _ _ _ Hth Hq), Hex.
    destruct ev; simpl in Hty; try (destruct Hty; discriminate).
    + simpl. unfold exceptEmpty, bind, onTrade.
      destruct (tradeBars_onTrade_total trade
                  (tradeBars (feed (afterGet th (EvTrade trade) q w))))
        as [tb' Htb].
      rewrite Htb. simpl. eauto.
    + simpl. unfold exceptEmpty, bind. simpl. eauto.
  - intros th q w' Hth Hq Hex.
    rewrite (dispatchImpl_get _ _ _ Hth Hq). simpl eventTypeOf. rewrite Hex.
    simpl. unfold exceptEmpty, bind.
    destruct (onDisconnected fuel (afterGet th EvDisconnected q w))
      as [[] w0|e w0|] eqn:Hd; simpl.
    + split; intros [= <-]; reflexivity.
    + apply onDisconnected_raise in Hd. subst e. split; discriminate.
    + split; discriminate.
Qed.

Lemma C4_witness :
  (exists suffix,
      effects (after (dispatchImpl 1 None busyWorld) busyWorld)
        = effects busyWorld ++ suffix /\
      (List.length (dequeued suffix) <= 1)%nat) /\
  (false = true <->
   exists th ev q,
     thread (feed busyWorld) = Some th /\ th_queue th = ev :: q /\
     excluded None (eventTypeOf ev) = false /\
     processes 1 ev (afterGet th ev q busyWorld)
               (after (dispatchImpl 1 None busyWorld) busyWorld)) /\
  (exists th ev q,
      dispatchImpl 1 (Some [TRADE]) busyWorld
      = Ok false (afterGet th ev q busyWorld)) /\
  (exists th q,
      dispatchImpl 1 None busyWorld
      = Ok false
          (addEffect (LogError "Invalid event received to dispatch: 7 - ping")
                     (afterGet th (EvOther 7 "ping") q busyWorld))) /\
  (exists th q w',
      dispatchImpl 1 None (after (dispatchImpl 1 None busyWorld) busyWorld)
      = Ok true w' /\
      processes 1 (EvTrade tradeA)
                (afterGet th (EvTrade tradeA) q
                   (after (dispatchImpl 1 None busyWorld) busyWorld))
                w') /\
  (exists th q w',
      onDisconnected 1 (afterGet th EvDisconnected q lastTradeWorld) = Ok tt w' /\
      dispatchImpl 1 None lastTradeWorld = Ok true w').
Proof.
  pose proof (C4_dispatch_takes_one_event_and_reports_it 1 None busyWorld)
    as (Hone & Hiff & _ & Hother & _).
  pose proof (C4_dispatch_takes_one_event_and_reports_it
                1 (Some [TRADE]) busyWorld) as (_ & _ & Hexcl & _).
  pose proof (C4_dispatch_takes_one_event_and_reports_it 1 None
                (after (dispatchImpl 1 None busyWorld) busyWorld))
    as (_ & _ & _ & _ & Hroute & _).
  pose proof (C4_dispatch_takes_one_event_and_reports_it 1 None lastTradeWorld)
    as (_ & _ & _ & _ & _ & Hdisc).
  split; [exact Hone|]. split; [|split; [|split; [|split]]].
  - eapply Hiff. reflexivity.
  - do 3 eexists. eapply Hexcl; reflexivity.
  - do 2 eexists. eapply (Hother _ 7 "ping"); reflexivity.
  - do 2 eexists. eapply (Hroute _ (EvTrade tradeA)); try reflexivity.
    left. reflexivity.
  - do 3 eexists. split; [reflexivity|].
    eapply Hdisc; reflexivity.
Defined.

(** What [getNextBars] does with an entry that [bar.Bars] refuses: the
    empty dict is popped, its key deleted, and the exception of
    [bar.Bars] comes out. *)
Example getNextBars_refused_entry (w : World) :
  tradeBars (feed w) = [(5, [[]])] ->
  getNextBars w = Raise (Exception "No bars supplied") (setTradeBars [] w).
Proof.
  intros Hb. unfold getNextBars. now rewrite Hb.
Qed.
